(** * SString: the UTF-8 / UTF-16 index bridge of [simple::String]

    A shallow embedding of [src/src/string.cpp] and of the header that declares
    [simple::String] (with [detail::count_utf16_code_units]), followed by the
    properties of the decoder, of the unit counter, of the byte-offset scan of
    [substring], and of the operations built on the decoded form. *)

From Stdlib Require Import ZArith List Lia Bool String.
From Stdlib Require Import Strings.Byte.
From stdpp Require Import gmap.
Import ListNotations.

Open Scope Z_scope.

(** ** Machine data *)

(** [reinterpret_cast<const unsigned char*>]: a byte read as a number in
    [0, 256). *)
Definition uchar (b : byte) : Z := Z.of_N (Byte.to_N b).

(** Conversion to [unsigned int] (32 bits) and to [char16_t] (16 bits). *)
Definition unsigned_int (z : Z) : Z := z mod 2 ^ 32.
Definition char16_t (z : Z) : Z := z mod 2 ^ 16.

(** A pointer [str] into a byte range that stops at [end] is the list of the
    bytes from [str] up to [end]: [str < end] is "the list is not empty",
    [str + k >= end] is "at most [k] bytes are left", [str[k]] is the [k]-th
    byte of the list and [str += k] drops [k] bytes.  The code reads [str[k]]
    only after [str + k >= end] has failed (the left operand of its [||]);
    here the read is total and gives 0 past the end, which no test lets
    through. *)
Definition deref (str : list byte) (k : nat) : Z := uchar (nth k str x00).
Definition at_end (str : list byte) (k : nat) : bool := (length str <=? k)%nat.
Definition advance (str : list byte) (k : nat) : list byte := skipn k str.

(** [std::u16string::push_back]: the argument is converted to [char16_t]. *)
Definition push_back (result : list Z) (c : Z) : list Z := result ++ [char16_t c].

Module simple.

(** ** The decoder loop of [String::get_utf16] *)

(** One iteration of [while (str < end)], for [str < end]. *)
Definition get_utf16_body (str : list byte) (result : list Z) : list byte * list Z :=
  if deref str 0 <? 0x80 then
    (advance str 1, push_back result (deref str 0))
  else if Z.land (deref str 0) 0xE0 =? 0xC0 then
    if at_end str 1 || negb (Z.land (deref str 1) 0xC0 =? 0x80) then
      (advance str 1, push_back result 0xFFFD)
    else
      let codepoint :=
        unsigned_int (Z.lor (Z.shiftl (Z.land (deref str 0) 0x1F) 6)
                            (Z.land (deref str 1) 0x3F)) in
      if codepoint <? 0x80 then
        (advance str 2, push_back (push_back result 0xFFFD) 0xFFFD)
      else
        (advance str 2, push_back result codepoint)
  else if Z.land (deref str 0) 0xF0 =? 0xE0 then
    if at_end str 2 || negb (Z.land (deref str 1) 0xC0 =? 0x80)
                    || negb (Z.land (deref str 2) 0xC0 =? 0x80) then
      (advance str 1, push_back result 0xFFFD)
    else
      let codepoint :=
        unsigned_int (Z.lor (Z.lor (Z.shiftl (Z.land (deref str 0) 0x0F) 12)
                                   (Z.shiftl (Z.land (deref str 1) 0x3F) 6))
                            (Z.land (deref str 2) 0x3F)) in
      if (codepoint <? 0x800) || ((0xD800 <=? codepoint) && (codepoint <=? 0xDFFF)) then
        (advance str 3,
         push_back (push_back (push_back result 0xFFFD) 0xFFFD) 0xFFFD)
      else
        (advance str 3, push_back result codepoint)
  else if Z.land (deref str 0) 0xF8 =? 0xF0 then
    if at_end str 3 || negb (Z.land (deref str 1) 0xC0 =? 0x80)
                    || negb (Z.land (deref str 2) 0xC0 =? 0x80)
                    || negb (Z.land (deref str 3) 0xC0 =? 0x80) then
      (advance str 1, push_back result 0xFFFD)
    else
      let codepoint :=
        unsigned_int (Z.lor (Z.lor (Z.lor (Z.shiftl (Z.land (deref str 0) 0x07) 18)
                                          (Z.shiftl (Z.land (deref str 1) 0x3F) 12))
                                   (Z.shiftl (Z.land (deref str 2) 0x3F) 6))
                            (Z.land (deref str 3) 0x3F)) in
      if (codepoint <? 0x10000) || (0x10FFFF <? codepoint) then
        (advance str 4,
         push_back (push_back (push_back (push_back result 0xFFFD) 0xFFFD) 0xFFFD) 0xFFFD)
      else
        let codepoint := unsigned_int (codepoint - 0x10000) in
        (advance str 4,
         push_back (push_back result (0xD800 + Z.shiftr codepoint 10))
                   (0xDC00 + Z.land codepoint 0x3FF))
  else
    (advance str 1, push_back result 0xFFFD).

(** The loop, with fuel: it stops when [str] reaches [end], and hands back the
    pointer together with the result, so that a run that stopped for lack of
    fuel shows (its pointer is not at [end]). *)
Fixpoint get_utf16_loop (fuel : nat) (str : list byte) (result : list Z)
  : list byte * list Z :=
  match fuel with
  | O => (str, result)
  | S fuel' =>
      match str with
      | [] => (str, result)
      | _ :: _ =>
          let '(str', result') := get_utf16_body str result in
          get_utf16_loop fuel' str' result'
      end
  end.

(** The decoded form of a byte range: every iteration moves [str] by one byte
    at least, so as many iterations as there are bytes are enough. *)
Definition decode_utf16 (bytes : list byte) : list Z :=
  snd (get_utf16_loop (length bytes) bytes []).


(** ** The counting loop of [detail::count_utf16_code_units] *)

Module detail.

(** One iteration of [while (str < end)], for [str < end]. *)
Definition count_utf16_code_units_body (str : list byte) (count : nat) : list byte * nat :=
  if deref str 0 <? 0x80 then
    (advance str 1, count + 1)%nat
  else if Z.land (deref str 0) 0xE0 =? 0xC0 then
    if at_end str 1 || negb (Z.land (deref str 1) 0xC0 =? 0x80) then
      (advance str 1, count + 1)%nat
    else
      let codepoint :=
        unsigned_int (Z.lor (Z.shiftl (Z.land (deref str 0) 0x1F) 6)
                            (Z.land (deref str 1) 0x3F)) in
      if codepoint <? 0x80 then
        (advance str 2, count + 2)%nat
      else
        (advance str 2, count + 1)%nat
  else if Z.land (deref str 0) 0xF0 =? 0xE0 then
    if at_end str 2 || negb (Z.land (deref str 1) 0xC0 =? 0x80)
                    || negb (Z.land (deref str 2) 0xC0 =? 0x80) then
      (advance str 1, count + 1)%nat
    else
      let codepoint :=
        unsigned_int (Z.lor (Z.lor (Z.shiftl (Z.land (deref str 0) 0x0F) 12)
                                   (Z.shiftl (Z.land (deref str 1) 0x3F) 6))
                            (Z.land (deref str 2) 0x3F)) in
      if (codepoint <? 0x800) || ((0xD800 <=? codepoint) && (codepoint <=? 0xDFFF)) then
        (advance str 3, count + 3)%nat
      else
        (advance str 3, count + 1)%nat
  else if Z.land (deref str 0) 0xF8 =? 0xF0 then
    if at_end str 3 || negb (Z.land (deref str 1) 0xC0 =? 0x80)
                    || negb (Z.land (deref str 2) 0xC0 =? 0x80)
                    || negb (Z.land (deref str 3) 0xC0 =? 0x80) then
      (advance str 1, count + 1)%nat
    else
      let codepoint :=
        unsigned_int (Z.lor (Z.lor (Z.lor (Z.shiftl (Z.land (deref str 0) 0x07) 18)
                                          (Z.shiftl (Z.land (deref str 1) 0x3F) 12))
                                   (Z.shiftl (Z.land (deref str 2) 0x3F) 6))
                            (Z.land (deref str 3) 0x3F)) in
      if (codepoint <? 0x10000) || (0x10FFFF <? codepoint) then
        (advance str 4, count + 4)%nat
      else
        (advance str 4, count + 2)%nat
  else
    (advance str 1, count + 1)%nat.

Fixpoint count_utf16_code_units_loop (fuel : nat) (str : list byte) (count : nat)
  : list byte * nat :=
  match fuel with
  | O => (str, count)
  | S fuel' =>
      match str with
      | [] => (str, count)
      | _ :: _ =>
          let '(str', count') := count_utf16_code_units_body str count in
          count_utf16_code_units_loop fuel' str' count'
      end
  end.

Definition count_utf16_code_units (utf8_str : list byte) : nat :=
  snd (count_utf16_code_units_loop (length utf8_str) utf8_str 0%nat).

(** [std::string::compare], as the C++ standard has it (library code, not of
    this repository): [char_traits<char>::compare] over the common length,
    bytes compared as [unsigned char], then the lengths.  Only the sign of
    the result is used. *)
Fixpoint traits_compare (n : nat) (s1 s2 : list byte) : Z :=
  match n with
  | O => 0
  | S n' =>
      if uchar (nth 0 s1 x00) <? uchar (nth 0 s2 x00) then -1
      else if uchar (nth 0 s2 x00) <? uchar (nth 0 s1 x00) then 1
      else traits_compare n' (skipn 1 s1) (skipn 1 s2)
  end.

Definition string_compare (s1 s2 : list byte) : Z :=
  let r := traits_compare (Nat.min (length s1) (length s2)) s1 s2 in
  if negb (r =? 0) then r
  else if (length s1 <? length s2)%nat then -1
  else if (length s2 <? length s1)%nat then 1
  else 0.

Definition compare_utf8_strings (str1 str2 : list byte) : Z :=
  string_compare str1 str2.

End detail.

(** ** The byte-offset scan of [String::substring] *)

(** One iteration of [while (str < end && utf16_index < target)], for a state
    that passes the test.  The two copies of the loop in [substring] (for
    [beginIndex] and for [endIndex]) are the same text. *)
Definition substring_scan_body (str : list byte) (utf16_index : nat) : list byte * nat :=
  if deref str 0 <? 0x80 then
    (advance str 1, utf16_index + 1)%nat
  else if Z.land (deref str 0) 0xE0 =? 0xC0 then
    if at_end str 1 || negb (Z.land (deref str 1) 0xC0 =? 0x80) then
      (advance str 1, utf16_index + 1)%nat
    else
      (advance str 2, utf16_index + 1)%nat
  else if Z.land (deref str 0) 0xF0 =? 0xE0 then
    if at_end str 2 || negb (Z.land (deref str 1) 0xC0 =? 0x80)
                    || negb (Z.land (deref str 2) 0xC0 =? 0x80) then
      (advance str 1, utf16_index + 1)%nat
    else
      (advance str 3, utf16_index + 1)%nat
  else if Z.land (deref str 0) 0xF8 =? 0xF0 then
    if at_end str 3 || negb (Z.land (deref str 1) 0xC0 =? 0x80)
                    || negb (Z.land (deref str 2) 0xC0 =? 0x80)
                    || negb (Z.land (deref str 3) 0xC0 =? 0x80) then
      (advance str 1, utf16_index + 1)%nat
    else
      (advance str 4, utf16_index + 2)%nat
  else
    (advance str 1, utf16_index + 1)%nat.

Fixpoint substring_scan_loop (fuel : nat) (target : nat) (str : list byte) (utf16_index : nat)
  : list byte * nat :=
  match fuel with
  | O => (str, utf16_index)
  | S fuel' =>
      match str with
      | [] => (str, utf16_index)
      | _ :: _ =>
          if (utf16_index <? target)%nat then
            let '(str', utf16_index') := substring_scan_body str utf16_index in
            substring_scan_loop fuel' target str' utf16_index'
          else (str, utf16_index)
      end
  end.

(** [str - (data_->c_str() + offset_)] after the loop: the bytes consumed. *)
Definition substring_scan (bytes : list byte) (target : nat) : nat :=
  (length bytes - length (fst (substring_scan_loop (length bytes) target bytes 0)))%nat.

(** ** The class [String] *)

(** Buffers are immutable [std::string]s held by [std::shared_ptr]: the heap
    maps the address of a buffer to its bytes, and two views share a buffer
    when they hold the same address. *)
Abbreviation heap := (gmap nat (list byte)).

Record String := mkString {
  data_ : nat;                       (* shared_ptr<const std::string> *)
  offset_ : nat;                     (* start offset in data_, in bytes *)
  length_ : nat;                     (* length of the view, in bytes *)
  utf16_cache_ : option (list Z)     (* shared_ptr<const std::u16string>, null at first *)
}.

Inductive exception : Type :=
| StringIndexOutOfBoundsException (msg : string).

Inductive outcome (A : Type) : Type :=
| Return (a : A)
| Throw (e : exception).
Arguments Return {A} a.
Arguments Throw {A} e.

(** Modelled from the spec: the class [Index], whose header is not among the
    sources ("a UTF-16 code-unit position"): an [Index] is its [value()], a
    [std::size_t], compared by value. *)
Abbreviation Index := nat.

(** Modelled from the spec: the class [CodePoint], whose header is not among
    the sources ("a 32-bit Unicode scalar value"): it wraps the value it is
    built from. *)
Record CodePoint := mkCodePoint { code_point_value : Z }.

(** Quantities of type [std::size_t] (byte offsets, lengths, unit indices) are
    natural numbers.  The subtractions of the code are between numbers in the
    right order: [len - offset] and [len - suffix_len] come after the tests
    [offset > len] and [len < suffix_len], and [utf8_end - utf8_begin] after
    [beginIndex > endIndex] has been ruled out (the scan is monotone in its
    target). *)

(** [*data_]. *)
Definition buffer (h : heap) (this : String) : list byte :=
  default [] (h !! data_ this).

(** The bytes from [data_->c_str() + offset_], [length_] of them. *)
Definition byte_range (h : heap) (this : String) : list byte :=
  firstn (length_ this) (skipn (offset_ this) (buffer h this)).

(** [String(const std::string& str)]: [std::make_shared] gives a new buffer,
    at an address that no buffer of the heap has. *)
Definition new_String (h : heap) (str : list byte) : heap * String :=
  let p := fresh (dom h) in
  (<[p := str]> h, mkString p 0 (List.length str) None).

(** [get_utf16]: the cached form when there is one; else the range is decoded
    and the result stored in [utf16_cache_] (the member is [mutable]: the
    second component is the object after the call). *)
Definition get_utf16 (h : heap) (this : String) : list Z * String :=
  match utf16_cache_ this with
  | Some cache => (cache, this)
  | None =>
      let result := decode_utf16 (byte_range h this) in
      (result, mkString (data_ this) (offset_ this) (length_ this) (Some result))
  end.

Definition shares_data_with (this other : String) : bool :=
  (data_ this =? data_ other)%nat.

Definition length (h : heap) (this : String) : nat :=
  match utf16_cache_ this with
  | Some cache => List.length cache
  | None =>
      if (length_ this =? 0)%nat then 0%nat
      else detail.count_utf16_code_units (byte_range h this)
  end.

Definition is_empty (this : String) : bool := (length_ this =? 0)%nat.

(** [for (i = 0; i < min_length; ++i) if (this_data[i] != other_data[i]) return false;]
    with [n] iterations left. *)
Fixpoint equals_loop (n : nat) (i : nat) (this_data other_data : list byte) : bool :=
  match n with
  | O => true
  | S n' =>
      if negb (Byte.eqb (nth i this_data x00) (nth i other_data x00)) then false
      else equals_loop n' (S i) this_data other_data
  end.

Definition equals (h : heap) (this other : String) : bool :=
  if shares_data_with this other && (offset_ this =? offset_ other)%nat
                                 && (length_ this =? length_ other)%nat then true
  else
    let this_data := skipn (offset_ this) (buffer h this) in
    let other_data := skipn (offset_ other) (buffer h other) in
    let min_length := Nat.min (length_ this) (length_ other) in
    if negb (length_ this =? length_ other)%nat then false
    else equals_loop min_length 0 this_data other_data.

(** The operations below start with [get_utf16()], which populates the cache
    of the receiver (and of the argument) when it is empty; what they return
    depends on the units alone, and the object after the call is the one
    [get_utf16] gives. *)
Definition code_point_at (h : heap) (this : String) (index : Index) : outcome CodePoint :=
  let utf16 := fst (get_utf16 h this) in
  if (List.length utf16 <=? index)%nat then
    Throw (StringIndexOutOfBoundsException "Index out of bounds")
  else
    let first := nth index utf16 0 in
    if (0xD800 <=? first) && (first <=? 0xDBFF) && (index + 1 <? List.length utf16)%nat then
      let second := nth (index + 1) utf16 0 in
      if (0xDC00 <=? second) && (second <=? 0xDFFF) then
        Return (mkCodePoint (0x10000 + Z.shiftl (first - 0xD800) 10 + (second - 0xDC00)))
      else Return (mkCodePoint first)
    else Return (mkCodePoint first).

(** One iteration of the [for] loop of [code_point_count], with its [++i]. *)
Definition code_point_count_body (utf16 : list Z) (end_index : nat) (i count : nat)
  : nat * nat :=
  let ch := nth i utf16 0 in
  let i :=
    if (0xD800 <=? ch) && (ch <=? 0xDBFF) && (i + 1 <? end_index)%nat then
      let next := nth (i + 1) utf16 0 in
      if (0xDC00 <=? next) && (next <=? 0xDFFF) then (i + 1)%nat else i
    else i in
  ((i + 1)%nat, (count + 1)%nat).

Fixpoint code_point_count_loop (fuel : nat) (utf16 : list Z) (end_index : nat) (i count : nat)
  : nat * nat :=
  match fuel with
  | O => (i, count)
  | S fuel' =>
      if (i <? end_index)%nat then
        let '(i', count') := code_point_count_body utf16 end_index i count in
        code_point_count_loop fuel' utf16 end_index i' count'
      else (i, count)
  end.

Definition code_point_count (h : heap) (this : String) (begin_index end_index : Index)
  : outcome nat :=
  let utf16 := fst (get_utf16 h this) in
  if (end_index <? begin_index)%nat || (List.length utf16 <? end_index)%nat then
    Throw (StringIndexOutOfBoundsException "Invalid range")
  else
    Return (snd (code_point_count_loop (end_index - begin_index) utf16 end_index
                                       begin_index 0%nat)).

(** [substring(beginIndex, endIndex)].  The result comes with the heap, since
    [String("")] makes a buffer. *)
Definition substring (h : heap) (this : String) (beginIndex endIndex : Index)
  : outcome (heap * String) :=
  let '(utf16, this) := get_utf16 h this in
  let len := List.length utf16 in
  if (len <? beginIndex)%nat then
    Throw (StringIndexOutOfBoundsException "beginIndex is out of bounds")
  else if (len <? endIndex)%nat then
    Throw (StringIndexOutOfBoundsException "endIndex is out of bounds")
  else if (endIndex <? beginIndex)%nat then
    Throw (StringIndexOutOfBoundsException "beginIndex cannot be larger than endIndex")
  else if (beginIndex =? 0)%nat && (endIndex =? List.length utf16)%nat then
    Return (h, this)
  else if (beginIndex =? endIndex)%nat then
    Return (new_String h [])
  else
    let utf8_begin :=
      if (0 <? beginIndex)%nat then substring_scan (byte_range h this) beginIndex
      else 0%nat in
    let utf8_end :=
      if (0 <? endIndex)%nat then substring_scan (byte_range h this) endIndex
      else 0%nat in
    Return (h, mkString (data_ this) (offset_ this + utf8_begin) (utf8_end - utf8_begin) None).

(** [for (i = 0; i < n; ++i) if (utf16[start + i] != other[i]) return false;]
    shared by [startsWith] and [endsWith], with [n] iterations left. *)
Fixpoint units_match_loop (n : nat) (i : nat) (utf16 : list Z) (start : nat) (other : list Z)
  : bool :=
  match n with
  | O => true
  | S n' =>
      if negb (nth (start + i) utf16 0 =? nth i other 0) then false
      else units_match_loop n' (S i) utf16 start other
  end.

Definition startsWith (h : heap) (this prefix : String) (offset : Index) : outcome bool :=
  let utf16 := fst (get_utf16 h this) in
  let prefix_utf16 := fst (get_utf16 h prefix) in
  let len := List.length utf16 in
  let prefix_len := List.length prefix_utf16 in
  if (len <? offset)%nat then
    Throw (StringIndexOutOfBoundsException "offset is out of bounds")
  else if (prefix_len =? 0)%nat then Return true
  else if (len - offset <? prefix_len)%nat then Return false
  else Return (units_match_loop prefix_len 0 utf16 offset prefix_utf16).

Definition endsWith (h : heap) (this suffix : String) : bool :=
  let utf16 := fst (get_utf16 h this) in
  let suffix_utf16 := fst (get_utf16 h suffix) in
  let len := List.length utf16 in
  let suffix_len := List.length suffix_utf16 in
  if (suffix_len =? 0)%nat then true
  else if (len <? suffix_len)%nat then false
  else
    let start := (len - suffix_len)%nat in
    units_match_loop suffix_len 0 utf16 start suffix_utf16.

(** ** The rest of the class [String] *)

(** Modelled from the spec: the class [Char], whose header is not among the
    sources ("a single UTF-16 code unit"): it wraps the [char16_t] it is built
    from, which [value()] gives back. *)
Record Char := mkChar { Char_value : Z }.

(** Modelled from the spec: the class [CompareResult], whose header is not
    among the sources ("yielding LESS/EQUAL/GREATER"). *)
Inductive CompareResult : Type := LESS | EQUAL | GREATER.

Definition char_at (h : heap) (this : String) (index : Index) : outcome Char :=
  let utf16 := fst (get_utf16 h this) in
  if (List.length utf16 <=? index)%nat then
    Throw (StringIndexOutOfBoundsException "Index out of bounds")
  else Return (mkChar (nth index utf16 0)).

Definition char_value (h : heap) (this : String) (index : Index) : outcome Z :=
  match char_at h this index with
  | Return c => Return (Char_value c)
  | Throw e => Throw e
  end.

Definition code_point_before (h : heap) (this : String) (index : Index)
  : outcome CodePoint :=
  let utf16 := fst (get_utf16 h this) in
  if (index =? 0)%nat || (List.length utf16 <? index)%nat then
    Throw (StringIndexOutOfBoundsException "Index out of bounds")
  else
    let second := nth (index - 1) utf16 0 in
    if (0xDC00 <=? second) && (second <=? 0xDFFF) && (2 <=? index)%nat then
      let first := nth (index - 2) utf16 0 in
      if (0xD800 <=? first) && (first <=? 0xDBFF) then
        Return (mkCodePoint (0x10000 + Z.shiftl (first - 0xD800) 10 + (second - 0xDC00)))
      else Return (mkCodePoint second)
    else Return (mkCodePoint second).

(** [to_string]: the buffer itself for a view of the whole buffer, else
    [data_->substr(offset_, length_)], which throws [std::out_of_range]
    ([None] here) for an offset beyond the buffer and stops at its end. *)
Definition to_string (h : heap) (this : String) : option (list byte) :=
  if (offset_ this =? 0)%nat && (length_ this =? List.length (buffer h this))%nat then
    Some (buffer h this)
  else if (List.length (buffer h this) <? offset_ this)%nat then None
  else Some (firstn (length_ this) (skipn (offset_ this) (buffer h this))).

(** [compare_to]; [None] when [to_string] throws. *)
Definition compare_to (h : heap) (this other : String) : option CompareResult :=
  if shares_data_with this other && (offset_ this =? offset_ other)%nat
                                 && (length_ this =? length_ other)%nat then Some EQUAL
  else
    match to_string h this with
    | None => None
    | Some this_str =>
        match to_string h other with
        | None => None
        | Some other_str =>
            let result := detail.compare_utf8_strings this_str other_str in
            if result <? 0 then Some LESS
            else if 0 <? result then Some GREATER
            else Some EQUAL
        end
    end.

(** [substring(beginIndex)]. *)
Definition substring_from (h : heap) (this : String) (beginIndex : Index)
  : outcome (heap * String) :=
  let len := length h this in
  if (len <? beginIndex)%nat then
    Throw (StringIndexOutOfBoundsException "beginIndex is out of bounds")
  else substring h this beginIndex len.

(** *** Searching

    [Index::invalid] is a constant of the header of [Index], which is not
    among the sources: the functions that return it take it as a parameter.
    A [Char] argument is given by its [value()]. *)

(** [for (i = fromIndex; i < len; ++i) if (utf16[i] == ch) return Index(i);]
    with [n] iterations left; [Index::invalid] after the loop. *)
Fixpoint indexOf_Char_loop (invalid : Index) (n : nat) (i : nat) (utf16 : list Z) (ch : Z)
  : Index :=
  match n with
  | O => invalid
  | S n' =>
      if nth i utf16 0 =? ch then i
      else indexOf_Char_loop invalid n' (S i) utf16 ch
  end.

(** [indexOf(Char ch, Index fromIndex)]. *)
Definition indexOf_Char_from (invalid : Index) (h : heap) (this : String) (ch : Z)
           (fromIndex : Index) : Index :=
  let utf16 := fst (get_utf16 h this) in
  let len := List.length utf16 in
  if (len <=? fromIndex)%nat then invalid
  else indexOf_Char_loop invalid (len - fromIndex) fromIndex utf16 ch.

(** [indexOf(Char ch)]. *)
Definition indexOf_Char (invalid : Index) (h : heap) (this : String) (ch : Z) : Index :=
  indexOf_Char_from invalid h this ch 0.

(** [for (i = fromIndex; i <= len - str_len; ++i)] with its inner loop (the
    one of [startsWith]), [n] iterations left. *)
Fixpoint indexOf_String_loop (invalid : Index) (n : nat) (i : nat)
         (utf16 str_utf16 : list Z) : Index :=
  match n with
  | O => invalid
  | S n' =>
      if units_match_loop (List.length str_utf16) 0 utf16 i str_utf16 then i
      else indexOf_String_loop invalid n' (S i) utf16 str_utf16
  end.

(** [indexOf(const String& str, Index fromIndex)]. *)
Definition indexOf_String_from (invalid : Index) (h : heap) (this str : String)
           (fromIndex : Index) : Index :=
  let utf16 := fst (get_utf16 h this) in
  let str_utf16 := fst (get_utf16 h str) in
  let len := List.length utf16 in
  let str_len := List.length str_utf16 in
  if (str_len =? 0)%nat then
    if (fromIndex <=? len)%nat then fromIndex else invalid
  else if (len <=? fromIndex)%nat || (len <? fromIndex + str_len)%nat then invalid
  else indexOf_String_loop invalid (len - str_len - fromIndex + 1) fromIndex utf16 str_utf16.

(** [indexOf(const String& str)]. *)
Definition indexOf_String (invalid : Index) (h : heap) (this str : String) : Index :=
  indexOf_String_from invalid h this str 0.

(** [for (i = fromIndex + 1; i > 0; --i) if (utf16[i - 1] == ch) return Index(i - 1);] *)
Fixpoint lastIndexOf_Char_loop (invalid : Index) (i : nat) (utf16 : list Z) (ch : Z)
  : Index :=
  match i with
  | O => invalid
  | S i' =>
      if nth i' utf16 0 =? ch then i'
      else lastIndexOf_Char_loop invalid i' utf16 ch
  end.

(** [lastIndexOf(Char ch, Index fromIndex)].  On an empty string the loop reads
    [utf16[0]], the terminator of the [std::u16string], which is 0. *)
Definition lastIndexOf_Char_from (invalid : Index) (h : heap) (this : String) (ch : Z)
           (fromIndex : Index) : Index :=
  let utf16 := fst (get_utf16 h this) in
  let len := List.length utf16 in
  let fromIndex :=
    if (len =? 0)%nat || (len <=? fromIndex)%nat then
      if (0 <? len)%nat then (len - 1)%nat else 0%nat
    else fromIndex in
  lastIndexOf_Char_loop invalid (fromIndex + 1) utf16 ch.

(** [lastIndexOf(Char ch)]: [utf16.length() - 1] is computed in [std::size_t]
    and wraps around for an empty string. *)
Definition lastIndexOf_Char (invalid : Index) (h : heap) (this : String) (ch : Z) : Index :=
  let utf16 := fst (get_utf16 h this) in
  lastIndexOf_Char_from invalid h this ch
    (Z.to_nat ((Z.of_nat (List.length utf16) - 1) mod 2 ^ 64)).

(** The inner loop of [lastIndexOf(const String&, Index)]:
    [if (start + j >= len || utf16[start + j] != str_utf16[j])] ends it. *)
Fixpoint lastIndexOf_match_loop (n : nat) (j : nat) (utf16 : list Z) (start : nat)
         (str_utf16 : list Z) : bool :=
  match n with
  | O => true
  | S n' =>
      if (List.length utf16 <=? start + j)%nat
         || negb (nth (start + j) utf16 0 =? nth j str_utf16 0) then false
      else lastIndexOf_match_loop n' (S j) utf16 start str_utf16
  end.

(** [for (i = fromIndex + 1; i > 0; --i)] with [start = i - 1]. *)
Fixpoint lastIndexOf_String_loop (invalid : Index) (i : nat) (utf16 str_utf16 : list Z)
  : Index :=
  match i with
  | O => invalid
  | S start =>
      if lastIndexOf_match_loop (List.length str_utf16) 0 utf16 start str_utf16 then start
      else lastIndexOf_String_loop invalid start utf16 str_utf16
  end.

(** [lastIndexOf(const String& str, Index fromIndex)]. *)
Definition lastIndexOf_String_from (invalid : Index) (h : heap) (this str : String)
           (fromIndex : Index) : Index :=
  let utf16 := fst (get_utf16 h this) in
  let str_utf16 := fst (get_utf16 h str) in
  let len := List.length utf16 in
  let str_len := List.length str_utf16 in
  if (str_len =? 0)%nat then
    if (fromIndex <=? len)%nat then fromIndex else len
  else if (len =? 0)%nat || (len <? str_len)%nat then invalid
  else
    let fromIndex :=
      if (len <=? fromIndex)%nat then (len - str_len)%nat
      else if (len <? fromIndex + str_len)%nat then (len - str_len)%nat
      else fromIndex in
    lastIndexOf_String_loop invalid (fromIndex + 1) utf16 str_utf16.

(** [lastIndexOf(const String& str)]. *)
Definition lastIndexOf_String (invalid : Index) (h : heap) (this str : String) : Index :=
  let utf16 := fst (get_utf16 h this) in
  lastIndexOf_String_from invalid h this str (List.length utf16).

(** [contains]: [indexOf(str) != Index::invalid]. *)
Definition contains (invalid : Index) (h : heap) (this str : String) : bool :=
  negb (indexOf_String invalid h this str =? invalid)%nat.

(** [startsWith(const String& prefix)]. *)
Definition startsWith_prefix (h : heap) (this prefix : String) : outcome bool :=
  startsWith h this prefix 0.

End simple.

(** ** Notions used in the statements *)

(** The invariants of a view: its range lies within its buffer, and its cache,
    once populated, holds the decoded form of its range ([get_utf16] is the
    only writer of [utf16_cache_]). *)
Definition range_in_buffer (h : gmap nat (list byte)) (this : simple.String) : Prop :=
  (simple.offset_ this + simple.length_ this <= List.length (simple.buffer h this))%nat.

Definition cache_coherent (h : gmap nat (list byte)) (this : simple.String) : Prop :=
  forall cache : list Z,
    simple.utf16_cache_ this = Some cache ->
    cache = simple.decode_utf16 (simple.byte_range h this).

Definition well_formed (h : gmap nat (list byte)) (this : simple.String) : Prop :=
  range_in_buffer h this /\ cache_coherent h this.

(** The classes of UTF-16 units. *)
Definition high_surrogate (u : Z) : Prop := 0xD800 <= u <= 0xDBFF.
Definition low_surrogate (u : Z) : Prop := 0xDC00 <= u <= 0xDFFF.

(** A sequence of units made of units outside the surrogate range and of
    pairs of a high then a low surrogate. *)
Inductive paired : list Z -> Prop :=
| paired_nil : paired []
| paired_unit (u : Z) (l : list Z) :
    ~ 0xD800 <= u <= 0xDFFF -> paired l -> paired (u :: l)
| paired_pair (hi lo : Z) (l : list Z) :
    high_surrogate hi -> low_surrogate lo -> paired l -> paired (hi :: lo :: l).

(** The decoder replaces a whole sequence at the head of [str]: its iteration
    appends several units, U+FFFD first (a complete 2-, 3- or 4-byte sequence
    whose assembled value is overlong, a surrogate or above 0x10FFFF). *)
Definition replaced_sequence (str : list byte) : bool :=
  let units := snd (simple.get_utf16_body str []) in
  (1 <? List.length units)%nat && (nth 0 units 0 =? 0xFFFD).

(** The units [needle] stand in [utf16] from index [i] on. *)
Definition occurs_at (utf16 needle : list Z) (i : nat) : Prop :=
  (i + List.length needle <= List.length utf16)%nat
  /\ firstn (List.length needle) (skipn i utf16) = needle.

(** ** Byte strings and views for the examples *)

Definition bytes_of (l : list Z) : list byte :=
  map (fun z => default x00 (Byte.of_N (Z.to_N z))) l.

(** "A", U+1D49C (four bytes), "B". *)
Definition text_A_script_B : list byte := bytes_of [0x41; 0xF0; 0x9D; 0x92; 0x9C; 0x42].
(** The overlong 3-byte encoding of 0, then "X". *)
Definition text_overlong_X : list byte := bytes_of [0xE0; 0x80; 0x80; 0x58].
(** A 2-byte lead without its continuation, then "X". *)
Definition text_lone_lead_X : list byte := bytes_of [0xC0; 0x58].
Definition text_abc : list byte := bytes_of [0x61; 0x62; 0x63].
(** "caf" and U+00E9; "cafe" and U+0301. *)
Definition text_cafe_precomposed : list byte := bytes_of [0x63; 0x61; 0x66; 0xC3; 0xA9].
Definition text_cafe_combining : list byte :=
  bytes_of [0x63; 0x61; 0x66; 0x65; 0xCC; 0x81].

(** [String a("A..B")] on an empty heap. *)
Definition heap_A_script_B : gmap nat (list byte) :=
  fst (simple.new_String ∅ text_A_script_B).
Definition view_A_script_B : simple.String :=
  snd (simple.new_String ∅ text_A_script_B).

(** [String s("\xE0\x80\x80X")] on an empty heap. *)
Definition heap_overlong_X : gmap nat (list byte) :=
  fst (simple.new_String ∅ text_overlong_X).
Definition view_overlong_X : simple.String :=
  snd (simple.new_String ∅ text_overlong_X).

(** The two spellings of "cafe" with an acute accent, one buffer each. *)
Definition heap_cafe : gmap nat (list byte) :=
  fst (simple.new_String (fst (simple.new_String ∅ text_cafe_precomposed))
                         text_cafe_combining).
Definition view_cafe_precomposed : simple.String :=
  snd (simple.new_String ∅ text_cafe_precomposed).
Definition view_cafe_combining : simple.String :=
  snd (simple.new_String (fst (simple.new_String ∅ text_cafe_precomposed))
                         text_cafe_combining).

(** "abc" and the empty string, one buffer each. *)
Definition heap_abc : gmap nat (list byte) :=
  fst (simple.new_String (fst (simple.new_String ∅ text_abc)) []).
Definition view_abc : simple.String := snd (simple.new_String ∅ text_abc).
Definition view_empty : simple.String :=
  snd (simple.new_String (fst (simple.new_String ∅ text_abc)) []).

(** "A", U+1D49C, "B" and its last two characters, U+1D49C and "B", one
    buffer each: the string searched and the string searched for. *)
Definition text_script_B : list byte := bytes_of [0xF0; 0x9D; 0x92; 0x9C; 0x42].
Definition heap_search : gmap nat (list byte) :=
  fst (simple.new_String (fst (simple.new_String ∅ text_A_script_B)) text_script_B).
Definition view_script_B : simple.String :=
  snd (simple.new_String (fst (simple.new_String ∅ text_A_script_B)) text_script_B).

(** * Properties *)

Import simple.

(** [length] stays the length of a list; the method is [simple.length]. *)
#[local] Abbreviation length := List.length.

(** ** Tactics for the tests of the loop bodies *)

Ltac lia_mod := Z.div_mod_to_equations; lia.

(** A test of a loop body, as a proposition of linear arithmetic. *)
Ltac prove_test :=
  rewrite ?andb_true_iff, ?orb_true_iff, ?negb_true_iff, ?andb_false_iff, ?orb_false_iff,
          ?negb_false_iff, ?andb_true_iff, ?orb_true_iff, ?andb_false_iff, ?orb_false_iff,
          ?Z.ltb_lt, ?Z.ltb_ge, ?Z.leb_le, ?Z.leb_gt, ?Z.eqb_eq, ?Z.eqb_neq,
          ?Nat.leb_le, ?Nat.leb_gt, ?Nat.ltb_lt, ?Nat.ltb_ge;
  lia_mod.

(** Settle the [if]s whose test the hypotheses decide. *)
Ltac decide_if :=
  match goal with
  | |- context [if ?c then _ else _] =>
      first [ replace c with true by (symmetry; prove_test)
            | replace c with false by (symmetry; prove_test) ];
      cbv iota
  end.

(** The reads and tests of a loop body over [b :: rest], in arithmetic; to be
    used once the lemmas on masks and assembled values below are there. *)
Ltac open_body_with masks :=
  unfold deref, at_end, advance, push_back;
  cbn [nth List.length skipn]; cbv zeta;
  masks;
  unfold unsigned_int, char16_t;
  change (2 ^ 32) with 4294967296; change (2 ^ 16) with 65536.

(** The tests met on the way to a leaf of a loop body, as propositions. *)
Ltac tests_to_props :=
  repeat match goal with
  | H : _ && _ = true |- _ => apply andb_true_iff in H; destruct H
  | H : _ || _ = false |- _ => apply orb_false_iff in H; destruct H
  | H : _ && _ = false |- _ => apply andb_false_iff in H; destruct H
  | H : _ || _ = true |- _ => apply orb_true_iff in H; destruct H
  | H : negb _ = true |- _ => apply negb_true_iff in H
  | H : negb _ = false |- _ => apply negb_false_iff in H
  | H : (_ <? _) = true |- _ => apply Z.ltb_lt in H
  | H : (_ <? _) = false |- _ => apply Z.ltb_ge in H
  | H : (_ <=? _) = true |- _ => apply Z.leb_le in H
  | H : (_ <=? _) = false |- _ => apply Z.leb_gt in H
  | H : (_ <=? _)%nat = true |- _ => apply Nat.leb_le in H
  | H : (_ <=? _)%nat = false |- _ => apply Nat.leb_gt in H
  | H : (_ <? _)%nat = true |- _ => apply Nat.ltb_lt in H
  | H : (_ <? _)%nat = false |- _ => apply Nat.ltb_ge in H
  | H : (_ =? _)%nat = true |- _ => apply Nat.eqb_eq in H
  | H : (_ =? _)%nat = false |- _ => apply Nat.eqb_neq in H
  end.

(** ** Bytes, masks and assembled values *)

Section Arithmetic.

Lemma uchar_range (b : byte) : 0 <= uchar b < 256.
Proof.
  unfold uchar. pose proof (Byte.to_N_bounded b). lia.
Qed.

(** The masks of the lead-byte and continuation-byte tests, as ranges. *)
Lemma mask_continuation (b : byte) :
  (Z.land (uchar b) 0xC0 =? 0x80) = (0x80 <=? uchar b) && (uchar b <? 0xC0).
Proof. destruct b; reflexivity. Qed.

Lemma mask_lead2 (b : byte) :
  (Z.land (uchar b) 0xE0 =? 0xC0) = (0xC0 <=? uchar b) && (uchar b <? 0xE0).
Proof. destruct b; reflexivity. Qed.

Lemma mask_lead3 (b : byte) :
  (Z.land (uchar b) 0xF0 =? 0xE0) = (0xE0 <=? uchar b) && (uchar b <? 0xF0).
Proof. destruct b; reflexivity. Qed.

Lemma mask_lead4 (b : byte) :
  (Z.land (uchar b) 0xF8 =? 0xF0) = (0xF0 <=? uchar b) && (uchar b <? 0xF8).
Proof. destruct b; reflexivity. Qed.

(** [x << n | y] is [x * 2^n + y] when [y] fits in the [n] low bits. *)
Lemma lor_low_bits (x y n : Z) :
  0 <= n -> 0 <= y < 2 ^ n -> Z.lor (x * 2 ^ n) y = x * 2 ^ n + y.
Proof.
  intros Hn Hy. symmetry. apply Z.add_nocarry_lor.
  apply Z.bits_inj'. intros i Hi.
  rewrite Z.land_spec, Z.bits_0, <- Z.shiftl_mul_pow2 by lia.
  destruct (Z.lt_ge_cases i n) as [Hlt | Hge].
  - rewrite Z.shiftl_spec_low by lia. reflexivity.
  - rewrite <- (Z.mod_small y (2 ^ n)) by lia.
    rewrite Z.mod_pow2_bits_high by lia. apply andb_false_r.
Qed.

Lemma land_low_mask (a n : Z) : 0 <= n -> Z.land a (2 ^ n - 1) = a mod 2 ^ n.
Proof.
  intros Hn. rewrite <- Z.land_ones by lia. f_equal.
  rewrite Z.ones_equiv. lia.
Qed.

(** The assembled values of the 2-, 3- and 4-byte forms. *)
Lemma assemble2 (a b : Z) :
  Z.lor (Z.shiftl (Z.land a 0x1F) 6) (Z.land b 0x3F) = a mod 32 * 64 + b mod 64.
Proof.
  change 0x1F with (2 ^ 5 - 1). change 0x3F with (2 ^ 6 - 1).
  rewrite !land_low_mask, Z.shiftl_mul_pow2 by lia.
  rewrite lor_low_bits by (try apply Z.mod_pos_bound; lia).
  reflexivity.
Qed.

Lemma assemble3 (a b c : Z) :
  Z.lor (Z.lor (Z.shiftl (Z.land a 0x0F) 12) (Z.shiftl (Z.land b 0x3F) 6)) (Z.land c 0x3F)
  = a mod 16 * 4096 + b mod 64 * 64 + c mod 64.
Proof.
  change 0x0F with (2 ^ 4 - 1). change 0x3F with (2 ^ 6 - 1).
  rewrite !land_low_mask, !Z.shiftl_mul_pow2 by lia.
  pose proof (Z.mod_pos_bound b (2 ^ 6) eq_refl) as Hb.
  pose proof (Z.mod_pos_bound c (2 ^ 6) eq_refl) as Hc.
  rewrite (lor_low_bits _ (b mod 2 ^ 6 * 2 ^ 6) 12) by lia.
  replace (a mod 2 ^ 4 * 2 ^ 12 + b mod 2 ^ 6 * 2 ^ 6)
    with ((a mod 2 ^ 4 * 2 ^ 6 + b mod 2 ^ 6) * 2 ^ 6) by lia.
  rewrite (lor_low_bits _ (c mod 2 ^ 6) 6) by lia.
  change (2 ^ 4) with 16. change (2 ^ 6) with 64. lia.
Qed.

Lemma assemble4 (a b c d : Z) :
  Z.lor (Z.lor (Z.lor (Z.shiftl (Z.land a 0x07) 18) (Z.shiftl (Z.land b 0x3F) 12))
               (Z.shiftl (Z.land c 0x3F) 6)) (Z.land d 0x3F)
  = a mod 8 * 262144 + b mod 64 * 4096 + c mod 64 * 64 + d mod 64.
Proof.
  change 0x07 with (2 ^ 3 - 1). change 0x3F with (2 ^ 6 - 1).
  rewrite !land_low_mask, !Z.shiftl_mul_pow2 by lia.
  pose proof (Z.mod_pos_bound b (2 ^ 6) eq_refl) as Hb.
  pose proof (Z.mod_pos_bound c (2 ^ 6) eq_refl) as Hc.
  pose proof (Z.mod_pos_bound d (2 ^ 6) eq_refl) as Hd.
  rewrite (lor_low_bits _ (b mod 2 ^ 6 * 2 ^ 12) 18) by lia.
  replace (a mod 2 ^ 3 * 2 ^ 18 + b mod 2 ^ 6 * 2 ^ 12)
    with ((a mod 2 ^ 3 * 2 ^ 6 + b mod 2 ^ 6) * 2 ^ 12) by lia.
  rewrite (lor_low_bits _ (c mod 2 ^ 6 * 2 ^ 6) 12) by lia.
  replace ((a mod 2 ^ 3 * 2 ^ 6 + b mod 2 ^ 6) * 2 ^ 12 + c mod 2 ^ 6 * 2 ^ 6)
    with (((a mod 2 ^ 3 * 2 ^ 6 + b mod 2 ^ 6) * 2 ^ 6 + c mod 2 ^ 6) * 2 ^ 6) by lia.
  rewrite (lor_low_bits _ (d mod 2 ^ 6) 6) by lia.
  change (2 ^ 3) with 8. change (2 ^ 6) with 64. lia.
Qed.

End Arithmetic.

Ltac open_body :=
  open_body_with
    ltac:(rewrite ?mask_lead2, ?mask_lead3, ?mask_lead4, ?mask_continuation,
                  ?assemble2, ?assemble3, ?assemble4).

(** ** The decoder: termination and the unfolding of one step *)

Section Decoder.

Lemma length_advance (str : list byte) (k : nat) :
  str <> [] -> (0 < k)%nat -> (length (advance str k) < length str)%nat.
Proof.
  intros Hne Hk. unfold advance. rewrite length_skipn.
  destruct str; [congruence | simpl; lia].
Qed.

Lemma get_utf16_body_shrinks (str : list byte) (result : list Z) :
  str <> [] -> (length (fst (get_utf16_body str result)) < length str)%nat.
Proof.
  intros Hne. unfold get_utf16_body.
  repeat case_match; cbn [fst]; apply length_advance; auto; lia.
Qed.

Lemma get_utf16_body_result (str : list byte) (result : list Z) :
  get_utf16_body str result
  = (fst (get_utf16_body str []), result ++ snd (get_utf16_body str [])).
Proof.
  unfold get_utf16_body, push_back.
  repeat case_match; cbn [fst snd app]; rewrite <- ?app_assoc; reflexivity.
Qed.

Lemma get_utf16_loop_fuel (fuel : nat) :
  forall (fuel' : nat) (str : list byte) (result : list Z),
    (length str <= fuel)%nat -> (length str <= fuel')%nat ->
    get_utf16_loop fuel str result = get_utf16_loop fuel' str result.
Proof.
  induction fuel as [| fuel IH]; intros fuel' str result Hf Hf'.
  - destruct str; [| simpl in Hf; lia]. destruct fuel'; reflexivity.
  - destruct str as [| b rest]; [destruct fuel'; reflexivity |].
    destruct fuel' as [| fuel']; [simpl in Hf'; lia |].
    cbn [get_utf16_loop].
    pose proof (get_utf16_body_shrinks (b :: rest) result ltac:(discriminate)) as Hlt.
    destruct (get_utf16_body (b :: rest) result) as [str' result'].
    cbn [fst length] in *. apply IH; lia.
Qed.

Lemma get_utf16_loop_result (fuel : nat) :
  forall (str : list byte) (result : list Z),
    get_utf16_loop fuel str result
    = (fst (get_utf16_loop fuel str []), result ++ snd (get_utf16_loop fuel str [])).
Proof.
  induction fuel as [| fuel IH]; intros str result.
  - cbn. now rewrite app_nil_r.
  - destruct str as [| b rest]; [cbn; now rewrite app_nil_r |].
    cbn [get_utf16_loop]. rewrite (get_utf16_body_result (b :: rest) result).
    destruct (get_utf16_body (b :: rest) []) as [str' units]. cbn [fst snd].
    rewrite (IH str' (result ++ units)), (IH str' units).
    cbn [fst snd app]. now rewrite app_assoc.
Qed.

Lemma get_utf16_loop_reaches_end (fuel : nat) :
  forall (str : list byte) (result : list Z),
    (length str <= fuel)%nat -> fst (get_utf16_loop fuel str result) = [].
Proof.
  induction fuel as [| fuel IH]; intros str result Hf.
  - destruct str; [reflexivity | simpl in Hf; lia].
  - destruct str as [| b rest]; [reflexivity |].
    cbn [get_utf16_loop].
    pose proof (get_utf16_body_shrinks (b :: rest) result ltac:(discriminate)) as Hlt.
    destruct (get_utf16_body (b :: rest) result) as [str' result'].
    cbn [fst length] in *. apply IH; lia.
Qed.

(** Enough fuel: the loop ends with [str] at [end], whatever the fuel above
    the number of bytes. *)
Lemma get_utf16_loop_enough (fuel : nat) (str : list byte) (result : list Z) :
  (length str <= fuel)%nat ->
  get_utf16_loop fuel str result = ([], result ++ decode_utf16 str).
Proof.
  intros Hf. rewrite get_utf16_loop_result.
  rewrite get_utf16_loop_reaches_end by assumption.
  unfold decode_utf16. now rewrite (get_utf16_loop_fuel fuel (length str)) by lia.
Qed.

Lemma decode_utf16_nil : decode_utf16 [] = [].
Proof. reflexivity. Qed.

(** The decoded form, one step at a time: the units of the first iteration,
    then the decoded form of what is left. *)
Lemma decode_utf16_cons (b : byte) (rest : list byte) :
  decode_utf16 (b :: rest)
  = snd (get_utf16_body (b :: rest) [])
    ++ decode_utf16 (fst (get_utf16_body (b :: rest) [])).
Proof.
  unfold decode_utf16 at 1. cbn [length get_utf16_loop].
  pose proof (get_utf16_body_shrinks (b :: rest) [] ltac:(discriminate)) as Hlt.
  destruct (get_utf16_body (b :: rest) []) as [str' units]. cbn [fst snd length] in *.
  rewrite get_utf16_loop_enough by lia. reflexivity.
Qed.

End Decoder.

(** ** The substitution policy of the decoder *)

Section Policy.

Ltac run_step :=
  rewrite decode_utf16_cons; unfold get_utf16_body; open_body;
  repeat decide_if; cbn [fst snd app].

(** C1. The decoder never fails and consumes the whole byte range: with as
    much fuel as there are bytes (or more) the loop of [get_utf16] stops with
    [str] at [end], and what [get_utf16] returns for a view without a cache
    is the decoded form of its byte range.  The decoded form follows the
    substitution policy, one sequence at a time from the left: an ASCII byte
    gives its own unit; a 2-, 3- or 4-byte lead whose continuation bytes are
    absent or malformed gives one U+FFFD and moves by one byte; a complete
    sequence whose assembled value is overlong, a surrogate or above 0x10FFFF
    gives 2, 3 or 4 U+FFFD and moves by 2, 3 or 4 bytes; a valid sequence
    gives its unit, or the high and low surrogate for a value above 0xFFFF; a
    stray continuation byte or a lead 11111xxx gives one U+FFFD and moves by
    one byte. *)
Theorem get_utf16_substitution_policy (bytes : list byte) :
  (forall fuel : nat, (length bytes <= fuel)%nat ->
     get_utf16_loop fuel bytes [] = ([], decode_utf16 bytes))
  /\ (forall (h : heap) (this : String),
        utf16_cache_ this = None -> byte_range h this = bytes ->
        fst (get_utf16 h this) = decode_utf16 bytes)
  /\ (bytes = [] -> decode_utf16 bytes = [])
  /\ (forall (b0 : byte) (rest : list byte), bytes = b0 :: rest ->
      let c0 := uchar b0 in
      let c k := uchar (nth k rest x00) in
      let continuation k := (k < length rest)%nat /\ 0x80 <= c k < 0xC0 in
      let after n := decode_utf16 (skipn n rest) in
      let decoded := decode_utf16 bytes in
      (c0 < 0x80 -> decoded = [c0] ++ after 0%nat)
      /\ (0xC0 <= c0 < 0xE0 ->
          (~ continuation 0%nat -> decoded = [0xFFFD] ++ after 0%nat)
          /\ (continuation 0%nat ->
              let v := (c0 - 0xC0) * 64 + (c 0%nat - 0x80) in
              (v < 0x80 -> decoded = [0xFFFD; 0xFFFD] ++ after 1%nat)
              /\ (0x80 <= v -> decoded = [v] ++ after 1%nat)))
      /\ (0xE0 <= c0 < 0xF0 ->
          (~ (continuation 0%nat /\ continuation 1%nat) ->
           decoded = [0xFFFD] ++ after 0%nat)
          /\ (continuation 0%nat /\ continuation 1%nat ->
              let v := (c0 - 0xE0) * 4096 + (c 0%nat - 0x80) * 64 + (c 1%nat - 0x80) in
              (v < 0x800 \/ 0xD800 <= v <= 0xDFFF ->
               decoded = [0xFFFD; 0xFFFD; 0xFFFD] ++ after 2%nat)
              /\ (0x800 <= v -> ~ 0xD800 <= v <= 0xDFFF ->
                  decoded = [v] ++ after 2%nat)))
      /\ (0xF0 <= c0 < 0xF8 ->
          (~ (continuation 0%nat /\ continuation 1%nat /\ continuation 2%nat) ->
           decoded = [0xFFFD] ++ after 0%nat)
          /\ (continuation 0%nat /\ continuation 1%nat /\ continuation 2%nat ->
              let v := (c0 - 0xF0) * 262144 + (c 0%nat - 0x80) * 4096
                       + (c 1%nat - 0x80) * 64 + (c 2%nat - 0x80) in
              (v < 0x10000 \/ 0x10FFFF < v ->
               decoded = [0xFFFD; 0xFFFD; 0xFFFD; 0xFFFD] ++ after 3%nat)
              /\ (0x10000 <= v <= 0x10FFFF ->
                  decoded = [0xD800 + Z.shiftr (v - 0x10000) 10;
                             0xDC00 + Z.land (v - 0x10000) 0x3FF] ++ after 3%nat)))
      /\ (0x80 <= c0 < 0xC0 \/ 0xF8 <= c0 -> decoded = [0xFFFD] ++ after 0%nat)).
Proof.
  split; [| split; [| split]].
  - intros fuel Hf. now rewrite get_utf16_loop_enough.
  - intros h this Hc <-. unfold get_utf16. now rewrite Hc.
  - now intros ->.
  - intros b0 rest -> c0 c continuation after decoded.
    subst decoded after continuation c c0. cbv beta.
    pose proof (uchar_range b0) as R0.
    pose proof (uchar_range (nth 0 rest x00)) as R1.
    pose proof (uchar_range (nth 1 rest x00)) as R2.
    pose proof (uchar_range (nth 2 rest x00)) as R3.
    repeat match goal with |- _ /\ _ => split end.
    + intros H0. run_step. f_equal. f_equal. lia_mod.
    + intros H0. split; [intros H1 | intros H1 v; subst v; split; intros Hv].
      * now run_step.
      * now run_step.
      * run_step. f_equal. f_equal. lia_mod.
    + intros H0. split; [intros H1 | intros H1 v; subst v; split; [intros Hv | intros Hv Hs]].
      * now run_step.
      * now run_step.
      * run_step. f_equal. f_equal. lia_mod.
    + intros H0. split; [intros H1 | intros H1 v; subst v; split; intros Hv].
      * now run_step.
      * now run_step.
      * run_step.
        match goal with
        | |- context [Z.shiftr ?x 10] =>
            replace x with
              ((uchar b0 - 240) * 262144 + (uchar (nth 0 rest x00) - 128) * 4096
               + (uchar (nth 1 rest x00) - 128) * 64 + (uchar (nth 2 rest x00) - 128)
               - 65536) by lia_mod
        end.
        change 1023 with (2 ^ 10 - 1).
        rewrite !Z.shiftr_div_pow2, !land_low_mask by lia.
        change (2 ^ 10) with 1024.
        f_equal; [| f_equal]; f_equal; lia_mod.
    + intros H0. now run_step.
Qed.

End Policy.

(** ** The unit counter against the decoder *)

Section Counter.

(** One iteration of the counter moves [str] as the decoder does and adds
    the number of units the decoder appends. *)
Lemma count_body_agrees (str : list byte) (count : nat) :
  detail.count_utf16_code_units_body str count
  = (fst (get_utf16_body str []),
     (count + length (snd (get_utf16_body str [])))%nat).
Proof.
  unfold detail.count_utf16_code_units_body, get_utf16_body, push_back.
  repeat case_match; reflexivity.
Qed.

Lemma count_loop_agrees (fuel : nat) :
  forall (str : list byte) (count : nat),
    detail.count_utf16_code_units_loop fuel str count
    = (fst (get_utf16_loop fuel str []),
       (count + length (snd (get_utf16_loop fuel str [])))%nat).
Proof.
  induction fuel as [| fuel IH]; intros str count.
  - cbn. f_equal. lia.
  - destruct str as [| b rest]; [cbn; f_equal; lia |].
    cbn [detail.count_utf16_code_units_loop get_utf16_loop].
    rewrite count_body_agrees.
    destruct (get_utf16_body (b :: rest) []) as [str' units]. cbn [fst snd].
    rewrite IH, (get_utf16_loop_result fuel str' units). cbn [fst snd].
    rewrite length_app. f_equal. lia.
Qed.

Lemma count_utf16_code_units_decode (bytes : list byte) :
  detail.count_utf16_code_units bytes = length (decode_utf16 bytes).
Proof.
  unfold detail.count_utf16_code_units, decode_utf16.
  now rewrite count_loop_agrees.
Qed.

(** [length()] is the number of units [get_utf16()] returns, with or without
    a cache. *)
Lemma length_get_utf16 (h : heap) (this : String) :
  simple.length h this = length (fst (get_utf16 h this)).
Proof.
  unfold simple.length, get_utf16.
  destruct (utf16_cache_ this) as [cache |]; [reflexivity |]. cbn [fst].
  destruct (Nat.eqb_spec (length_ this) 0) as [Hz | Hnz].
  - unfold byte_range. now rewrite Hz.
  - apply count_utf16_code_units_decode.
Qed.

(** C2. The counter returns the number of units the decoder produces for the
    same bytes (its loop, too, ends with [str] at [end] when given as much
    fuel as there are bytes), so that [length()] on a view without a cache is
    the length of the decoded form that [get_utf16()] then caches, and is the
    same once the cache is there. *)
Theorem count_utf16_code_units_agrees (bytes : list byte) :
  detail.count_utf16_code_units bytes = length (decode_utf16 bytes)
  /\ (forall fuel : nat, (length bytes <= fuel)%nat ->
        detail.count_utf16_code_units_loop fuel bytes 0%nat
        = ([], length (decode_utf16 bytes)))
  /\ (forall (h : heap) (this : String),
        byte_range h this = bytes -> utf16_cache_ this = None ->
        utf16_cache_ (snd (get_utf16 h this)) = Some (decode_utf16 bytes)
        /\ simple.length h this = length (decode_utf16 bytes)
        /\ simple.length h (snd (get_utf16 h this)) = simple.length h this).
Proof.
  split; [apply count_utf16_code_units_decode | split].
  - intros fuel Hf. rewrite count_loop_agrees, get_utf16_loop_enough by assumption.
    reflexivity.
  - intros h this <- Hc.
    assert (Hl : simple.length h this = length (decode_utf16 (byte_range h this))).
    { rewrite length_get_utf16. unfold get_utf16. now rewrite Hc. }
    split; [| split; [exact Hl |]].
    + unfold get_utf16. now rewrite Hc.
    + rewrite Hl. unfold get_utf16. rewrite Hc. reflexivity.
Qed.

End Counter.

(** ** Surrogates in the decoded form *)

Section Surrogates.

Lemma paired_app (l1 l2 : list Z) : paired l1 -> paired l2 -> paired (l1 ++ l2).
Proof.
  intros H1 H2. induction H1; cbn [app]; [assumption | |]; constructor; assumption.
Qed.

(** What one iteration appends: one unit outside the surrogate range, or a
    high surrogate followed by a low surrogate, or two to four U+FFFD. *)
Lemma get_utf16_body_units (b : byte) (rest : list byte) :
  let units := snd (get_utf16_body (b :: rest) []) in
  (exists u : Z, units = [u] /\ ~ 0xD800 <= u <= 0xDFFF)
  \/ (exists hi lo : Z, units = [hi; lo] /\ high_surrogate hi /\ low_surrogate lo)
  \/ (exists l : list Z,
        units = 0xFFFD :: 0xFFFD :: l /\ Forall (fun u => u = 0xFFFD) l).
Proof.
  pose proof (uchar_range b) as R0.
  pose proof (uchar_range (nth 0 rest x00)) as R1.
  pose proof (uchar_range (nth 1 rest x00)) as R2.
  pose proof (uchar_range (nth 2 rest x00)) as R3.
  unfold get_utf16_body. open_body.
  repeat case_match; cbn [snd app]; tests_to_props.
  all: try (left; eexists; split; [reflexivity | lia_mod]).
  all: try (right; right; eexists; split; [reflexivity | repeat constructor]).
  all: right; left; do 2 eexists; (split; [reflexivity |]).
  all: change 1023 with (2 ^ 10 - 1).
  all: rewrite Z.shiftr_div_pow2, land_low_mask by lia; change (2 ^ 10) with 1024.
  all: unfold high_surrogate, low_surrogate; split; lia_mod.
Qed.

Lemma get_utf16_body_paired (b : byte) (rest : list byte) :
  paired (snd (get_utf16_body (b :: rest) [])).
Proof.
  destruct (get_utf16_body_units b rest)
    as [(u & -> & Hu) | [(hi & lo & -> & Hhi & Hlo) | (l & -> & Hl)]].
  - apply paired_unit; [assumption | apply paired_nil].
  - apply paired_pair; [assumption | assumption | apply paired_nil].
  - do 2 (apply paired_unit; [lia |]).
    induction Hl as [| u l -> _ IH]; [apply paired_nil |].
    apply paired_unit; [lia | exact IH].
Qed.

Lemma decode_utf16_paired (bytes : list byte) : paired (decode_utf16 bytes).
Proof.
  remember (length bytes) as n eqn:Hn. revert bytes Hn.
  induction n as [n IH] using lt_wf_ind. intros bytes Hn.
  destruct bytes as [| b rest]; [apply paired_nil |].
  rewrite decode_utf16_cons. apply paired_app.
  - apply get_utf16_body_paired.
  - pose proof (get_utf16_body_shrinks (b :: rest) [] ltac:(discriminate)) as Hlt.
    eapply IH; [| reflexivity]. lia.
Qed.

(** In such a sequence no surrogate stands alone. *)
Lemma paired_no_lone_surrogate (l : list Z) :
  paired l ->
  forall (i : nat) (u : Z),
    l !! i = Some u ->
    (high_surrogate u -> exists v : Z, l !! S i = Some v /\ low_surrogate v)
    /\ (low_surrogate u ->
        exists (j : nat) (v : Z), i = S j /\ l !! j = Some v /\ high_surrogate v).
Proof.
  unfold high_surrogate, low_surrogate.
  induction 1 as [| u0 l Hu0 Hl IH | hi lo l Hhi Hlo Hl IH]; intros i u Hi.
  - discriminate.
  - destruct i as [| i]; cbn in Hi.
    + injection Hi as <-. split; intros; lia.
    + destruct (IH i u Hi) as [IHh IHl]. split.
      * intros Hu. destruct (IHh Hu) as (v & Hv & Hlow). exists v. auto.
      * intros Hu. destruct (IHl Hu) as (j & v & -> & Hv & Hhigh).
        exists (S j), v. auto.
  - unfold high_surrogate, low_surrogate in *.
    destruct i as [| [| i]]; cbn in Hi.
    + injection Hi as <-. split; [| intros; lia].
      intros _. exists lo. auto.
    + injection Hi as <-. split; [intros; lia |].
      intros _. exists 0%nat, hi. auto.
    + destruct (IH i u Hi) as [IHh IHl]. split.
      * intros Hu. destruct (IHh Hu) as (v & Hv & Hlow). exists v. auto.
      * intros Hu. destruct (IHl Hu) as (j & v & -> & Hv & Hhigh).
        exists (S (S j)), v. auto.
Qed.

Lemma get_utf16_coherent (h : heap) (this : String) :
  cache_coherent h this -> fst (get_utf16 h this) = decode_utf16 (byte_range h this).
Proof.
  intros Hc. unfold get_utf16.
  destruct (utf16_cache_ this) as [cache |] eqn:E; [| reflexivity].
  cbn [fst]. now apply Hc.
Qed.

(** C9. The decoded form has no unpaired surrogate: a high surrogate at an
    index is followed by a low surrogate at the next index, and a low
    surrogate at an index follows a high surrogate at the index before; so
    it is for what [get_utf16] returns on every view whose cache, if any,
    came from [get_utf16]. *)
Theorem get_utf16_no_unpaired_surrogate (bytes : list byte) :
  (forall (i : nat) (u : Z),
     decode_utf16 bytes !! i = Some u ->
     (high_surrogate u ->
      exists v : Z, decode_utf16 bytes !! S i = Some v /\ low_surrogate v)
     /\ (low_surrogate u ->
         exists (j : nat) (v : Z),
           i = S j /\ decode_utf16 bytes !! j = Some v /\ high_surrogate v))
  /\ (forall (h : heap) (this : String),
        byte_range h this = bytes -> cache_coherent h this ->
        forall (i : nat) (u : Z),
          fst (get_utf16 h this) !! i = Some u ->
          (high_surrogate u ->
           exists v : Z, fst (get_utf16 h this) !! S i = Some v /\ low_surrogate v)
          /\ (low_surrogate u ->
              exists (j : nat) (v : Z),
                i = S j /\ fst (get_utf16 h this) !! j = Some v /\ high_surrogate v)).
Proof.
  split.
  - apply paired_no_lone_surrogate, decode_utf16_paired.
  - intros h this <- Hc. rewrite get_utf16_coherent by assumption.
    apply paired_no_lone_surrogate, decode_utf16_paired.
Qed.

End Surrogates.

(** ** Empty views *)

Section Empty.

Lemma get_utf16_body_emits (str : list byte) :
  (0 < length (snd (get_utf16_body str [])))%nat.
Proof.
  unfold get_utf16_body, push_back.
  repeat case_match; cbn [snd app List.length]; lia.
Qed.

Lemma decode_utf16_length_zero (bytes : list byte) :
  length (decode_utf16 bytes) = 0%nat <-> bytes = [].
Proof.
  split; [| now intros ->].
  destruct bytes as [| b rest]; [reflexivity |].
  rewrite decode_utf16_cons, length_app.
  pose proof (get_utf16_body_emits (b :: rest)). lia.
Qed.

Lemma byte_range_length (h : heap) (this : String) :
  range_in_buffer h this -> length (byte_range h this) = length_ this.
Proof.
  unfold range_in_buffer, byte_range. intros Hr.
  rewrite length_firstn, length_skipn. lia.
Qed.

Lemma length_well_formed (h : heap) (this : String) :
  cache_coherent h this ->
  simple.length h this = length (decode_utf16 (byte_range h this)).
Proof.
  intros Hc. now rewrite length_get_utf16, get_utf16_coherent.
Qed.

(** C10. On a view that keeps the invariants, [is_empty()] (a test on the
    byte length) and [length() == 0] (a count of UTF-16 units) agree: every
    iteration of the counting loop consumes one byte at least and counts one
    unit at least, so no unit is counted exactly when the range has no byte. *)
Theorem is_empty_iff_length_zero (h : heap) (this : String) :
  well_formed h this ->
  (is_empty this = true <-> simple.length h this = 0%nat)
  /\ (forall (str : list byte) (count : nat),
        str <> [] ->
        (length (fst (detail.count_utf16_code_units_body str count)) < length str)%nat
        /\ (count < snd (detail.count_utf16_code_units_body str count))%nat).
Proof.
  intros [Hr Hc]. split.
  - rewrite length_well_formed, decode_utf16_length_zero by assumption.
    unfold is_empty. rewrite Nat.eqb_eq, <- (byte_range_length h this Hr).
    split; [apply length_zero_iff_nil | now intros ->].
  - intros str count Hne. rewrite count_body_agrees. cbn [fst snd].
    pose proof (get_utf16_body_shrinks str [] Hne).
    pose proof (get_utf16_body_emits str). lia.
Qed.

End Empty.

(** ** Code points *)

Section CodePoints.

(** C4. [code_point_at] throws (the out-of-bounds exception) exactly when the
    index is not below the number of units; below it, a high surrogate at the
    index with a low surrogate right after it gives the combined code point,
    and anything else gives the unit at the index. *)
Theorem code_point_at_spec (h : heap) (this : String) (index : nat) :
  let utf16 := fst (get_utf16 h this) in
  let first := nth index utf16 0 in
  let second := nth (index + 1) utf16 0 in
  ((exists e : exception, code_point_at h this index = Throw e)
   <-> (simple.length h this <= index)%nat)
  /\ ((simple.length h this <= index)%nat ->
      code_point_at h this index
      = Throw (StringIndexOutOfBoundsException "Index out of bounds"))
  /\ ((index < simple.length h this)%nat ->
      (high_surrogate first /\ (index + 1 < simple.length h this)%nat
       /\ low_surrogate second ->
       code_point_at h this index
       = Return (mkCodePoint
                   (0x10000 + Z.shiftl (first - 0xD800) 10 + (second - 0xDC00))))
      /\ (~ (high_surrogate first /\ (index + 1 < simple.length h this)%nat
             /\ low_surrogate second) ->
          code_point_at h this index = Return (mkCodePoint first))).
Proof.
  intros utf16 first second. rewrite length_get_utf16. fold utf16.
  unfold high_surrogate, low_surrogate, code_point_at. fold utf16 first second.
  destruct (Nat.leb_spec (length utf16) index) as [Hge | Hlt].
  - split; [| split]; [split; eauto | reflexivity | lia].
  - split; [| split]; [| lia |].
    + split; [| lia]. intros [e He].
      repeat case_match; discriminate.
    + intros _. split; intros Hp.
      * repeat decide_if. reflexivity.
      * destruct ((0xD800 <=? first) && (first <=? 0xDBFF)
                  && (index + 1 <? length utf16)%nat) eqn:E1; [| reflexivity].
        destruct ((0xDC00 <=? second) && (second <=? 0xDFFF)) eqn:E2; [| reflexivity].
        tests_to_props. lia.
Qed.

End CodePoints.

(** ** Equality of views *)

Section Equality.

Lemma equals_loop_spec (n : nat) :
  forall (i : nat) (this_data other_data : list byte),
    equals_loop n i this_data other_data = true
    <-> (forall j : nat, (i <= j < i + n)%nat ->
           nth j this_data x00 = nth j other_data x00).
Proof.
  induction n as [| n IH]; intros i this_data other_data; cbn [equals_loop].
  - split; [intros _ j Hj; lia | reflexivity].
  - destruct (Byte.eqb (nth i this_data x00) (nth i other_data x00)) eqn:E; cbn [negb].
    + apply Byte.byte_dec_bl in E. rewrite IH. split; intros Hall j Hj.
      * destruct (Nat.eq_dec j i) as [-> | Hne]; [exact E | apply Hall; lia].
      * apply Hall. lia.
    + apply Byte.eqb_false in E. split; [discriminate |].
      intros Hall. exfalso. apply E, Hall. lia.
Qed.

Lemma firstn_eq_nth (n : nat) (l1 l2 : list byte) :
  (n <= length l1)%nat -> (n <= length l2)%nat ->
  firstn n l1 = firstn n l2
  <-> (forall j : nat, (j < n)%nat -> nth j l1 x00 = nth j l2 x00).
Proof.
  intros H1 H2. split.
  - intros Heq j Hj.
    pose proof (nth_firstn n l1 j x00) as E1. pose proof (nth_firstn n l2 j x00) as E2.
    apply Nat.ltb_lt in Hj. rewrite Hj in E1, E2. now rewrite <- E1, <- E2, Heq.
  - intros Hall. apply (nth_ext _ _ x00 x00).
    + rewrite !length_firstn. lia.
    + intros j Hj. rewrite length_firstn in Hj. rewrite !nth_firstn.
      destruct (Nat.ltb_spec j n); [apply Hall |]; lia.
Qed.

(** C5. On views that lie within their buffers, [equals] is true exactly when
    the two views have the same byte length and the same bytes over their
    ranges: the fast path (same buffer, offset and length) answers true only
    where the bytes are the same, and views whose bytes differ (two encodings
    of the same rendered text, say) are not equal. *)
Theorem equals_bytewise (h : heap) (this other : String) :
  range_in_buffer h this -> range_in_buffer h other ->
  (equals h this other = true
   <-> length_ this = length_ other /\ byte_range h this = byte_range h other)
  /\ (shares_data_with this other = true -> offset_ this = offset_ other ->
      length_ this = length_ other ->
      equals h this other = true /\ byte_range h this = byte_range h other)
  /\ (byte_range h this <> byte_range h other -> equals h this other = false).
Proof.
  intros Hr Hr'.
  assert (Hfast : shares_data_with this other = true -> offset_ this = offset_ other ->
                  length_ this = length_ other ->
                  byte_range h this = byte_range h other).
  { unfold shares_data_with, byte_range, buffer. intros Hd Ho Hl.
    apply Nat.eqb_eq in Hd. now rewrite Hd, Ho, Hl. }
  assert (Hiff : equals h this other = true
                 <-> length_ this = length_ other
                     /\ byte_range h this = byte_range h other).
  { unfold equals.
    destruct (shares_data_with this other && (offset_ this =? offset_ other)%nat
              && (length_ this =? length_ other)%nat) eqn:E.
    - tests_to_props. split; [intros _ | reflexivity]. auto.
    - clear E. destruct (Nat.eqb_spec (length_ this) (length_ other)) as [Hl | Hl];
        cbn [negb].
      + unfold byte_range. rewrite equals_loop_spec, <- Hl, Nat.min_id.
        unfold range_in_buffer in Hr, Hr'.
        rewrite firstn_eq_nth by (rewrite length_skipn; lia).
        split; [intros Hall; split; [reflexivity |]; intros j Hj; apply Hall; lia |].
        intros [_ Hall] j Hj. apply Hall. lia.
      + split; [discriminate | intros [Hl' _]; contradiction]. }
  split; [exact Hiff | split].
  - intros Hd Ho Hl. split; [| now apply Hfast].
    apply Hiff. split; [assumption | now apply Hfast].
  - intros Hne. destruct (equals h this other) eqn:E; [| reflexivity].
    exfalso. apply Hne. now apply Hiff.
Qed.

End Equality.

(** ** Counting code points *)

Section CodePointCount.

(** The loop of [code_point_count] from [i] up to [end_index]: it stops at
    [end_index], counts at most one code point per unit, and counts exactly
    one per unit when no high surrogate is followed by a low one. *)
Lemma code_point_count_loop_spec (utf16 : list Z) (end_index : nat) (fuel : nat) :
  forall i count : nat,
    (i <= end_index)%nat -> (end_index - i <= fuel)%nat ->
    fst (code_point_count_loop fuel utf16 end_index i count) = end_index
    /\ (snd (code_point_count_loop fuel utf16 end_index i count)
        <= count + (end_index - i))%nat
    /\ (snd (code_point_count_loop fuel utf16 end_index i count)
        = (count + (end_index - i))%nat
        <-> (forall j : nat, (i <= j)%nat -> (j + 1 < end_index)%nat ->
               ~ (high_surrogate (nth j utf16 0)
                  /\ low_surrogate (nth (j + 1) utf16 0)))).
Proof.
  unfold high_surrogate, low_surrogate.
  induction fuel as [| fuel IH]; intros i count Hi Hf.
  - cbn. split; [lia | split; [lia |]]. split; [intros _ j; lia | lia].
  - cbn [code_point_count_loop].
    destruct (Nat.ltb_spec i end_index) as [Hlt | Hge].
    2:{ cbn. split; [lia | split; [lia |]]. split; [intros _ j; lia | lia]. }
    unfold code_point_count_body.
    destruct ((0xD800 <=? nth i utf16 0) && (nth i utf16 0 <=? 0xDBFF)
              && (i + 1 <? end_index)%nat) eqn:E1;
      [destruct ((0xDC00 <=? nth (i + 1) utf16 0) && (nth (i + 1) utf16 0 <=? 0xDFFF))
         eqn:E2 |].
    + (* a surrogate pair at [i]: both units are one code point *)
      tests_to_props.
      destruct (IH (i + 1 + 1)%nat (count + 1)%nat) as (Hend & Hle & _); [lia | lia |].
      split; [exact Hend | split; [lia |]].
      split; [lia |]. intros Hall. exfalso. apply (Hall i); lia.
    + (* a high surrogate, no low surrogate after it *)
      destruct (IH (i + 1)%nat (count + 1)%nat) as (Hend & Hle & Hiff); [lia | lia |].
      split; [exact Hend | split; [lia |]].
      replace (count + (end_index - i))%nat
        with (count + 1 + (end_index - (i + 1)))%nat by lia.
      rewrite Hiff. tests_to_props.
      all: split; intros Hall j Hj Hj';
        [ destruct (Nat.eq_dec j i) as [-> | Hne]; [lia | apply Hall; lia]
        | apply Hall; lia ].
    + destruct (IH (i + 1)%nat (count + 1)%nat) as (Hend & Hle & Hiff); [lia | lia |].
      split; [exact Hend | split; [lia |]].
      replace (count + (end_index - i))%nat
        with (count + 1 + (end_index - (i + 1)))%nat by lia.
      rewrite Hiff. tests_to_props.
      all: split; intros Hall j Hj Hj';
        [ destruct (Nat.eq_dec j i) as [-> | Hne]; [lia | apply Hall; lia]
        | apply Hall; lia ].
Qed.

(** C7. Over the whole view [code_point_count] returns, and returns at most
    [length()]; it returns [length()] exactly when the units that
    [get_utf16] gives hold no high surrogate immediately followed by a low
    surrogate. *)
Theorem code_point_count_le_length (h : heap) (this : String) :
  let utf16 := fst (get_utf16 h this) in
  exists count : nat,
    code_point_count h this 0 (simple.length h this) = Return count
    /\ (count <= simple.length h this)%nat
    /\ (count = simple.length h this
        <-> ~ (exists i : nat,
                 (i + 1 < length utf16)%nat
                 /\ high_surrogate (nth i utf16 0)
                 /\ low_surrogate (nth (i + 1) utf16 0))).
Proof.
  intros utf16. rewrite length_get_utf16. fold utf16.
  unfold code_point_count. fold utf16.
  replace ((length utf16 <? 0)%nat || (length utf16 <? length utf16)%nat) with false
    by (symmetry; apply orb_false_iff; split; apply Nat.ltb_ge; lia).
  eexists. split; [reflexivity |].
  destruct (code_point_count_loop_spec utf16 (length utf16) (length utf16 - 0) 0 0)
    as (_ & Hle & Hiff); [lia | lia |].
  split; [lia |].
  replace (0 + (length utf16 - 0))%nat with (length utf16) in Hiff by lia.
  rewrite Hiff. split.
  - intros Hall (i & Hi & Hh & Hl). apply (Hall i); [lia | lia | auto].
  - intros Hno j _ Hj Hp. apply Hno. exists j. tauto.
Qed.

End CodePointCount.

(** ** Prefixes and suffixes *)

Section Matching.

(** C8, as the code has it.  With an empty prefix, [startsWith] returns true
    for every offset up to [length()], and throws for an offset beyond it
    (the bounds check on the offset comes first); with an empty suffix,
    [endsWith] returns true. *)
Theorem startsWith_empty_prefix (h : heap) (this prefix : String) (offset : nat) :
  simple.length h prefix = 0%nat ->
  ((offset <= simple.length h this)%nat ->
   startsWith h this prefix offset = Return true)
  /\ ((simple.length h this < offset)%nat ->
      startsWith h this prefix offset
      = Throw (StringIndexOutOfBoundsException "offset is out of bounds"))
  /\ endsWith h this prefix = true.
Proof.
  rewrite !length_get_utf16. intros Hp.
  unfold startsWith, endsWith. rewrite Hp. cbn [Nat.eqb].
  split; [| split; [| reflexivity]]; intros Ho.
  - now replace (length (fst (get_utf16 h this)) <? offset)%nat with false
      by (symmetry; apply Nat.ltb_ge; lia).
  - now replace (length (fst (get_utf16 h this)) <? offset)%nat with true
      by (symmetry; apply Nat.ltb_lt; lia).
Qed.

End Matching.

(** ** Substrings: the whole view and the empty view *)

Section Substring.

Lemma get_utf16_fields (h : heap) (this : String) :
  data_ (snd (get_utf16 h this)) = data_ this
  /\ offset_ (snd (get_utf16 h this)) = offset_ this
  /\ length_ (snd (get_utf16 h this)) = length_ this
  /\ utf16_cache_ (snd (get_utf16 h this)) = Some (fst (get_utf16 h this)).
Proof.
  unfold get_utf16. destruct (utf16_cache_ this) eqn:E; cbn; auto.
Qed.

(** C6. [substring(0, length())] succeeds and returns the view itself (same
    buffer, offset and length, with the cache that the call populated), which
    [equals] the original; and for every [b <= length()], [substring(b, b)]
    succeeds and returns an empty view, whose [length()] is 0. *)
Theorem substring_whole_and_empty (h : heap) (this : String) :
  well_formed h this ->
  (substring h this 0 (simple.length h this) = Return (h, snd (get_utf16 h this))
   /\ data_ (snd (get_utf16 h this)) = data_ this
   /\ offset_ (snd (get_utf16 h this)) = offset_ this
   /\ length_ (snd (get_utf16 h this)) = length_ this
   /\ equals h this (snd (get_utf16 h this)) = true
   /\ equals h (snd (get_utf16 h this)) this = true)
  /\ (forall b : nat,
        (b <= simple.length h this)%nat ->
        exists (h' : heap) (result : String),
          substring h this b b = Return (h', result)
          /\ is_empty result = true
          /\ byte_range h' result = []
          /\ simple.length h' result = 0%nat).
Proof.
  intros [Hr Hc].
  destruct (get_utf16_fields h this) as (Hd & Ho & Hl & Hcache).
  assert (Hsub : forall b e : nat,
            substring h this b e
            = let utf16 := fst (get_utf16 h this) in
              let this' := snd (get_utf16 h this) in
              let len := length utf16 in
              if (len <? b)%nat then
                Throw (StringIndexOutOfBoundsException "beginIndex is out of bounds")
              else if (len <? e)%nat then
                Throw (StringIndexOutOfBoundsException "endIndex is out of bounds")
              else if (e <? b)%nat then
                Throw (StringIndexOutOfBoundsException
                         "beginIndex cannot be larger than endIndex")
              else if (b =? 0)%nat && (e =? length utf16)%nat then Return (h, this')
              else if (b =? e)%nat then Return (new_String h [])
              else
                Return
                  (h, mkString (data_ this')
                        (offset_ this'
                         + (if (0 <? b)%nat then substring_scan (byte_range h this') b
                            else 0%nat))
                        ((if (0 <? e)%nat then substring_scan (byte_range h this') e
                          else 0%nat)
                         - (if (0 <? b)%nat then substring_scan (byte_range h this') b
                            else 0%nat))
                        None)).
  { intros b e. unfold substring. destruct (get_utf16 h this) as [utf16 this'].
    reflexivity. }
  split.
  - split; [| repeat split; try assumption].
    + rewrite Hsub, length_get_utf16. cbv zeta.
      replace (length (fst (get_utf16 h this)) <? 0)%nat with false
        by (symmetry; apply Nat.ltb_ge; lia).
      now rewrite !Nat.ltb_irrefl, !Nat.eqb_refl.
    + unfold equals, shares_data_with. now rewrite Hd, Ho, Hl, !Nat.eqb_refl.
    + unfold equals, shares_data_with. now rewrite Hd, Ho, Hl, !Nat.eqb_refl.
  - intros b Hb. rewrite length_get_utf16 in Hb. rewrite Hsub. cbv zeta.
    replace (length (fst (get_utf16 h this)) <? b)%nat with false
      by (symmetry; apply Nat.ltb_ge; lia).
    rewrite Nat.ltb_irrefl, Nat.eqb_refl.
    destruct ((b =? 0)%nat && (b =? length (fst (get_utf16 h this)))%nat) eqn:E.
    + (* the empty view itself, asked for as a whole *)
      tests_to_props. subst b.
      assert (Hempty : byte_range h this = []).
      { apply decode_utf16_length_zero. rewrite <- get_utf16_coherent by assumption.
        congruence. }
      assert (Hzero : length_ this = 0%nat).
      { rewrite <- (byte_range_length h this Hr), Hempty. reflexivity. }
      exists h, (snd (get_utf16 h this)). split; [reflexivity |].
      split; [unfold is_empty; now rewrite Hl, Hzero |].
      split.
      * unfold byte_range. now rewrite Hl, Hzero.
      * unfold simple.length. rewrite Hcache. congruence.
    + exists (fst (new_String h [])), (snd (new_String h [])).
      split; [now destruct (new_String h []) |].
      cbn. auto.
Qed.

End Substring.

(** ** The byte-offset scan of [substring] against the decoder *)

Section Scan.

Ltac use_tests :=
  repeat match goal with
  | E : ?c = _ |- context [?c] => rewrite E
  end.

Ltac same_on_prefix k :=
  exists k; split; [cbn [List.length]; lia |];
  let m := fresh "m" in
  let Hm := fresh "Hm" in
  intros m Hm; destruct m as [| [| [| [| m]]]]; try lia;
  unfold get_utf16_body, deref, at_end, advance;
  cbn [firstn nth List.length skipn Nat.leb]; cbv zeta;
  use_tests; reflexivity.

(** One iteration reads no further than the bytes it consumes, unless to find
    a sequence cut short: on every prefix of the range that holds the [k]
    bytes it consumes, it does the same. *)
Lemma get_utf16_body_prefix (b0 : byte) (rest : list byte) :
  exists k : nat,
    (1 <= k <= length (b0 :: rest))%nat
    /\ forall m : nat,
         (k <= m)%nat ->
         get_utf16_body (firstn m (b0 :: rest)) []
         = (skipn k (firstn m (b0 :: rest)), snd (get_utf16_body (b0 :: rest) [])).
Proof.
  destruct rest as [| b1 [| b2 [| b3 rest]]];
    unfold get_utf16_body at 2; unfold deref, at_end, advance;
    cbn [nth List.length skipn Nat.leb]; cbv zeta;
    repeat case_match; cbn [snd].
  all: first [ same_on_prefix 1%nat | same_on_prefix 2%nat
             | same_on_prefix 3%nat | same_on_prefix 4%nat ].
Qed.

Lemma substring_scan_body_shrinks (str : list byte) (utf16_index : nat) :
  str <> [] -> (length (fst (substring_scan_body str utf16_index)) < length str)%nat.
Proof.
  intros Hne. unfold substring_scan_body.
  repeat case_match; cbn [fst]; apply length_advance; auto; lia.
Qed.

Lemma substring_scan_loop_fuel (target : nat) (fuel : nat) :
  forall (fuel' : nat) (str : list byte) (utf16_index : nat),
    (length str <= fuel)%nat -> (length str <= fuel')%nat ->
    substring_scan_loop fuel target str utf16_index
    = substring_scan_loop fuel' target str utf16_index.
Proof.
  induction fuel as [| fuel IH]; intros fuel' str utf16_index Hf Hf'.
  - destruct str; [| simpl in Hf; lia]. destruct fuel'; reflexivity.
  - destruct str as [| b rest]; [destruct fuel'; reflexivity |].
    destruct fuel' as [| fuel']; [simpl in Hf'; lia |].
    cbn [substring_scan_loop]. destruct (utf16_index <? target)%nat; [| reflexivity].
    pose proof (substring_scan_body_shrinks (b :: rest) utf16_index ltac:(discriminate))
      as Hlt.
    destruct (substring_scan_body (b :: rest) utf16_index) as [str' utf16_index'].
    cbn [fst List.length] in *. apply IH; lia.
Qed.

(** Where the decoder does not replace a whole sequence, one iteration of the
    scan moves [str] as the decoder does and counts the units it appends. *)
Lemma substring_scan_body_agrees (str : list byte) (utf16_index : nat) :
  replaced_sequence str = false ->
  substring_scan_body str utf16_index
  = (fst (get_utf16_body str []),
     (utf16_index + length (snd (get_utf16_body str [])))%nat).
Proof.
  unfold replaced_sequence, substring_scan_body, get_utf16_body.
  repeat case_match; intros Hrep; first [reflexivity | discriminate Hrep].
Qed.

Lemma replaced_sequence_units (b : byte) (rest : list byte) :
  replaced_sequence (b :: rest) = false ->
  (exists u : Z, snd (get_utf16_body (b :: rest) []) = [u])
  \/ (exists hi lo : Z,
        snd (get_utf16_body (b :: rest) []) = [hi; lo]
        /\ high_surrogate hi /\ low_surrogate lo).
Proof.
  unfold replaced_sequence. cbv zeta.
  destruct (get_utf16_body_units b rest)
    as [(u & -> & Hu) | [(hi & lo & -> & Hhi & Hlo) | (l & -> & Hl)]]; intros Hrep.
  - left. eauto.
  - right. eauto.
  - discriminate Hrep.
Qed.

Lemma substring_scan_loop_spec (target : nat) (n : nat) :
  forall (str : list byte) (utf16_index : nat),
    length str = n ->
    (forall k : nat, replaced_sequence (skipn k str) = false) ->
    exists off : nat,
      (off <= length str)%nat
      /\ substring_scan_loop (length str) target str utf16_index
         = (skipn off str,
            (utf16_index + length (decode_utf16 (firstn off str)))%nat)
      /\ decode_utf16 str
         = decode_utf16 (firstn off str) ++ decode_utf16 (skipn off str)
      /\ ((target <= utf16_index)%nat -> off = 0%nat)
      /\ ((utf16_index <= target)%nat ->
          (target <= utf16_index + length (decode_utf16 str))%nat ->
          (utf16_index + length (decode_utf16 (firstn off str)))%nat = target
          \/ ((utf16_index + length (decode_utf16 (firstn off str)))%nat
              = (target + 1)%nat
              /\ exists (l : list Z) (hi lo : Z),
                   decode_utf16 (firstn off str) = l ++ [hi; lo]
                   /\ high_surrogate hi /\ low_surrogate lo)).
Proof.
  induction n as [n IH] using lt_wf_ind. intros str utf16_index Hn Hclean.
  destruct str as [| b rest].
  { exists 0%nat. cbn.
    split; [lia |]. split; [f_equal; lia |]. split; [reflexivity |].
    split; [reflexivity |]. intros; left; lia. }
  cbn [List.length substring_scan_loop].
  destruct (Nat.ltb_spec utf16_index target) as [Hlt | Hge].
  2:{ exists 0%nat. cbn [firstn skipn]. rewrite decode_utf16_nil. cbn [List.length app].
      split; [lia |]. split; [f_equal; lia |]. split; [reflexivity |].
      split; [reflexivity |]. intros; left; lia. }
  pose proof (Hclean 0%nat) as Hrep. cbn [skipn] in Hrep.
  rewrite (substring_scan_body_agrees _ _ Hrep).
  destruct (get_utf16_body_prefix b rest) as (k & Hk & Hprefix).
  pose proof (Hprefix (length (b :: rest)) ltac:(lia)) as Hwhole.
  rewrite firstn_all in Hwhole.
  destruct (get_utf16_body (b :: rest) []) as [str1 units] eqn:Hbody.
  cbn [fst snd] in *. injection Hwhole as ->.
  assert (Hlen1 : length (skipn k (b :: rest)) = (length (b :: rest) - k)%nat)
    by apply length_skipn.
  cbn [List.length] in Hlen1, Hk, Hn.
  rewrite (substring_scan_loop_fuel target (length rest) (length (skipn k (b :: rest))))
    by lia.
  destruct (IH (length (skipn k (b :: rest))) ltac:(lia) (skipn k (b :: rest))
              (utf16_index + length units)%nat eq_refl)
    as (off1 & Hoff1 & Hloop & Hsplit & Hstop & Hpost).
  { intros j. rewrite skipn_skipn. apply Hclean. }
  assert (Hfirst : decode_utf16 (firstn (k + off1) (b :: rest))
                   = units ++ decode_utf16 (firstn off1 (skipn k (b :: rest)))).
  { pose proof (Hprefix (k + off1)%nat ltac:(lia)) as Hp.
    destruct (k + off1)%nat as [| m] eqn:Hm; [lia |].
    cbn [firstn] in Hp |- *. rewrite decode_utf16_cons, Hp. cbn [fst snd].
    change (b :: firstn m rest) with (firstn (S m) (b :: rest)).
    rewrite <- Hm. now rewrite <- firstn_skipn_comm. }
  assert (Hdecode : decode_utf16 (b :: rest)
                    = units ++ decode_utf16 (skipn k (b :: rest))).
  { rewrite decode_utf16_cons, Hbody. reflexivity. }
  exists (k + off1)%nat.
  split; [cbn [List.length]; lia |].
  split.
  { rewrite Hloop, Hfirst, length_app, skipn_skipn, (Nat.add_comm off1 k).
    f_equal. lia. }
  split.
  { rewrite Hdecode, Hfirst, Hsplit, <- app_assoc, skipn_skipn, (Nat.add_comm off1 k).
    reflexivity. }
  split; [lia |].
  intros _ Hmax. rewrite Hdecode, length_app in Hmax. rewrite Hfirst, length_app.
  destruct (replaced_sequence_units b rest Hrep) as [(u & Hu) | (hi & lo & Hu & Hhi & Hlo)];
    rewrite Hbody in Hu; cbn [snd] in Hu; subst units; cbn [List.length] in *.
  - destruct Hpost as [Heq | (Heq & l & hi & lo & Hl & Hhi & Hlo)]; [lia | lia | left; lia |].
    right. split; [lia |]. exists (u :: l), hi, lo. rewrite Hl. auto.
  - destruct (Nat.le_gt_cases (utf16_index + 2) target) as [Hle | Hgt].
    + destruct Hpost as [Heq | (Heq & l & hi' & lo' & Hl & Hhi' & Hlo')];
        [lia | lia | left; lia |].
      right. split; [lia |]. exists (hi :: lo :: l), hi', lo'. rewrite Hl. auto.
    + rewrite (Hstop ltac:(lia)), firstn_O, decode_utf16_nil.
      cbn [List.length app]. right. split; [lia |]. exists [], hi, lo. auto.
Qed.

(** C3, as the code has it.  On a byte range in which the decoder replaces
    no whole sequence (no complete 2-, 3- or 4-byte sequence with an overlong,
    surrogate or too large value), the scan counts, at every position, the
    units the decoder appends there (two for a well-formed 4-byte sequence,
    one for a sequence cut short or a stray byte), and for a target up to the
    number of units it returns the length of a byte prefix whose decoded form
    is the head of the decoded form of the range and has [target] units, or
    [target + 1] units ending in a surrogate pair when the target falls
    between the two halves of that pair. *)
Theorem substring_scan_offset (bytes : list byte) (target : nat) :
  (forall k : nat, replaced_sequence (skipn k bytes) = false) ->
  (target <= length (decode_utf16 bytes))%nat ->
  let off := substring_scan bytes target in
  let prefix := decode_utf16 (firstn off bytes) in
  (forall k utf16_index : nat,
     substring_scan_body (skipn k bytes) utf16_index
     = (fst (get_utf16_body (skipn k bytes) []),
        (utf16_index + length (snd (get_utf16_body (skipn k bytes) [])))%nat))
  /\ (off <= length bytes)%nat
  /\ decode_utf16 bytes = prefix ++ decode_utf16 (skipn off bytes)
  /\ (length prefix = target
      \/ (length prefix = (target + 1)%nat
          /\ exists (l : list Z) (hi lo : Z),
               prefix = l ++ [hi; lo] /\ high_surrogate hi /\ low_surrogate lo)).
Proof.
  intros Hclean Htarget off prefix.
  split; [intros k utf16_index; apply substring_scan_body_agrees, Hclean |].
  destruct (substring_scan_loop_spec target (length bytes) bytes 0 eq_refl Hclean)
    as (off' & Hoff & Hloop & Hsplit & _ & Hpost).
  assert (Hoff' : off = off').
  { subst off. unfold substring_scan. rewrite Hloop. cbn [fst].
    rewrite length_skipn. lia. }
  subst prefix. rewrite Hoff'.
  split; [assumption | split; [assumption |]].
  apply Hpost; lia.
Qed.

End Scan.

(** ** The invariants of a view are established and kept *)

Section Invariants.

Lemma new_String_well_formed (h : heap) (str : list byte) :
  well_formed (fst (new_String h str)) (snd (new_String h str))
  /\ byte_range (fst (new_String h str)) (snd (new_String h str)) = str.
Proof.
  unfold well_formed, range_in_buffer, cache_coherent, byte_range, buffer, new_String.
  cbn [fst snd data_ offset_ length_ utf16_cache_].
  rewrite lookup_insert_eq. cbn.
  split; [split; [lia | discriminate] | apply firstn_all].
Qed.

Lemma get_utf16_well_formed (h : heap) (this : String) :
  well_formed h this -> well_formed h (snd (get_utf16 h this)).
Proof.
  intros [Hr Hc]. unfold get_utf16.
  destruct (utf16_cache_ this) as [cache |] eqn:E; [split; assumption |].
  split; [exact Hr |]. intros cache [= <-]. reflexivity.
Qed.

Lemma substring_scan_loop_length (target : nat) (fuel : nat) :
  forall (str : list byte) (utf16_index : nat),
    (length (fst (substring_scan_loop fuel target str utf16_index)) <= length str)%nat.
Proof.
  induction fuel as [| fuel IH]; intros str utf16_index; [cbn; lia |].
  destruct str as [| b rest]; [cbn; lia |].
  cbn [substring_scan_loop]. destruct (utf16_index <? target)%nat; [| cbn; lia].
  pose proof (substring_scan_body_shrinks (b :: rest) utf16_index ltac:(discriminate))
    as Hlt.
  destruct (substring_scan_body (b :: rest) utf16_index) as [str' utf16_index'].
  cbn [fst] in Hlt. specialize (IH str' utf16_index'). lia.
Qed.

Lemma substring_scan_le_length (bytes : list byte) (target : nat) :
  (substring_scan bytes target <= length bytes)%nat.
Proof. unfold substring_scan. lia. Qed.

(** The scan for a larger target stops no earlier: in [substring], where
    [beginIndex <= endIndex], [utf8_end - utf8_begin] does not wrap around. *)
Lemma substring_scan_loop_monotone (target target' : nat) (fuel : nat) :
  (target <= target')%nat ->
  forall (str : list byte) (utf16_index : nat),
    (length (fst (substring_scan_loop fuel target' str utf16_index))
     <= length (fst (substring_scan_loop fuel target str utf16_index)))%nat.
Proof.
  intros Hle. induction fuel as [| fuel IH]; intros str utf16_index; [cbn; lia |].
  destruct str as [| b rest]; [cbn; lia |].
  cbn [substring_scan_loop].
  destruct (Nat.ltb_spec utf16_index target) as [Hlt | Hge].
  - replace (utf16_index <? target')%nat with true by (symmetry; apply Nat.ltb_lt; lia).
    destruct (substring_scan_body (b :: rest) utf16_index) as [str' utf16_index'].
    apply IH.
  - cbn [fst].
    pose proof (substring_scan_loop_length target' (S fuel) (b :: rest) utf16_index) as Hl.
    exact Hl.
Qed.

(** X1. The byte offset that the scan of [substring] returns grows with the
    target: the offset of [beginIndex] is at most that of [endIndex], so that
    the byte length of the result, their difference, does not wrap around. *)
Lemma substring_scan_monotone (bytes : list byte) (target target' : nat) :
  (target <= target')%nat ->
  (substring_scan bytes target <= substring_scan bytes target')%nat.
Proof.
  intros Hle. unfold substring_scan.
  pose proof (substring_scan_loop_monotone target target' (length bytes) Hle bytes 0).
  pose proof (substring_scan_loop_length target (length bytes) bytes 0).
  lia.
Qed.

(** X2. What [substring] returns is a view that keeps the invariants. *)
Lemma substring_well_formed (h h' : heap) (this result : String)
      (beginIndex endIndex : nat) :
  well_formed h this ->
  substring h this beginIndex endIndex = Return (h', result) ->
  well_formed h' result.
Proof.
  intros Hwf. pose proof (get_utf16_well_formed h this Hwf) as Hwf'.
  destruct (get_utf16_fields h this) as (Hd & Ho & Hl & _).
  unfold substring. destruct (get_utf16 h this) as [utf16 this']. cbn [snd] in *.
  destruct Hwf' as [Hr' Hc'].
  pose proof (byte_range_length h this' Hr') as Hlen.
  pose proof (substring_scan_le_length (byte_range h this') beginIndex) as Hb.
  pose proof (substring_scan_le_length (byte_range h this') endIndex) as He.
  repeat case_match; intros [= <- <-]; try (split; assumption);
    try apply new_String_well_formed.
  all: split; [| discriminate].
  all: unfold range_in_buffer, buffer in *; cbn [data_ offset_ length_]; lia.
Qed.

End Invariants.


(** ** Searching: occurrences *)

Section Occurrences.

Lemma occurs_at_nth (utf16 needle : list Z) (i : nat) :
  occurs_at utf16 needle i
  <-> (i + length needle <= length utf16)%nat
      /\ forall j : nat, (j < length needle)%nat ->
           nth (i + j) utf16 0 = nth j needle 0.
Proof.
  unfold occurs_at. split; intros [Hle H]; (split; [exact Hle |]).
  - intros j Hj. rewrite <- H. rewrite nth_firstn.
    apply Nat.ltb_lt in Hj. rewrite Hj. now rewrite nth_skipn.
  - apply (nth_ext _ _ 0 0).
    + rewrite length_firstn, length_skipn. lia.
    + intros j Hj. rewrite length_firstn, length_skipn in Hj.
      rewrite nth_firstn, nth_skipn.
      destruct (Nat.ltb_spec j (length needle)); [apply H |]; lia.
Qed.

Lemma occurs_at_app (utf16 needle : list Z) (i : nat) :
  occurs_at utf16 needle i
  <-> exists l1 l2 : list Z, utf16 = l1 ++ needle ++ l2 /\ length l1 = i.
Proof.
  unfold occurs_at. split.
  - intros [Hle H]. exists (firstn i utf16), (skipn (length needle) (skipn i utf16)).
    split; [| rewrite length_firstn; lia].
    rewrite <- H at 1. now rewrite !firstn_skipn.
  - intros (l1 & l2 & -> & <-). split.
    + rewrite !length_app. lia.
    + rewrite skipn_app, Nat.sub_diag, skipn_all.
      change ([] ++ skipn 0 (needle ++ l2)) with (needle ++ l2).
      rewrite firstn_app, Nat.sub_diag, firstn_all, firstn_O. apply app_nil_r.
Qed.

Lemma units_match_loop_spec (utf16 other : list Z) (start : nat) (n : nat) :
  forall i : nat,
    units_match_loop n i utf16 start other = true
    <-> (forall j : nat, (i <= j < i + n)%nat ->
           nth (start + j) utf16 0 = nth j other 0).
Proof.
  induction n as [| n IH]; intros i; cbn [units_match_loop].
  - split; [intros _ j Hj; lia | reflexivity].
  - destruct (Z.eqb_spec (nth (start + i) utf16 0) (nth i other 0)) as [E | E];
      cbn [negb].
    + rewrite IH. split; intros Hall j Hj.
      * destruct (Nat.eq_dec j i) as [-> | Hne]; [exact E | apply Hall; lia].
      * apply Hall. lia.
    + split; [discriminate |]. intros Hall. exfalso. apply E, Hall. lia.
Qed.

Lemma units_match_occurs (utf16 needle : list Z) (i : nat) :
  (i + length needle <= length utf16)%nat ->
  units_match_loop (length needle) 0 utf16 i needle = true <-> occurs_at utf16 needle i.
Proof.
  intros Hle. rewrite units_match_loop_spec, occurs_at_nth.
  split; [intros Hall; split; [exact Hle |]; intros j Hj; apply Hall; lia |].
  intros [_ Hall] j Hj. apply Hall. lia.
Qed.

Lemma lastIndexOf_match_loop_spec (utf16 str_utf16 : list Z) (start : nat) (n : nat) :
  forall j : nat,
    lastIndexOf_match_loop n j utf16 start str_utf16 = true
    <-> (forall k : nat, (j <= k < j + n)%nat ->
           (start + k < length utf16)%nat
           /\ nth (start + k) utf16 0 = nth k str_utf16 0).
Proof.
  induction n as [| n IH]; intros j; cbn [lastIndexOf_match_loop].
  - split; [intros _ k Hk; lia | reflexivity].
  - destruct (Nat.leb_spec (length utf16) (start + j)) as [Hout | Hin]; cbn [orb].
    + split; [discriminate |]. intros Hall. destruct (Hall j); lia.
    + destruct (Z.eqb_spec (nth (start + j) utf16 0) (nth j str_utf16 0)) as [E | E];
        cbn [negb].
      * rewrite IH. split; intros Hall k Hk.
        -- destruct (Nat.eq_dec k j) as [-> | Hne]; [split; [lia | exact E] |].
           apply Hall. lia.
        -- apply Hall. lia.
      * split; [discriminate |]. intros Hall. exfalso. apply E, Hall. lia.
Qed.

Lemma lastIndexOf_match_occurs (utf16 needle : list Z) (start : nat) :
  (0 < length needle)%nat ->
  lastIndexOf_match_loop (length needle) 0 utf16 start needle = true
  <-> occurs_at utf16 needle start.
Proof.
  intros Hpos. rewrite lastIndexOf_match_loop_spec, occurs_at_nth. split.
  - intros Hall. split.
    + destruct (Hall (length needle - 1)%nat); lia.
    + intros j Hj. apply Hall. lia.
  - intros [Hle Hall] k Hk. split; [lia | apply Hall; lia].
Qed.

End Occurrences.

(** ** Searching: first and last occurrences *)

Section Searching.

Variable invalid : nat.

Lemma indexOf_Char_loop_spec (utf16 : list Z) (ch : Z) (n : nat) :
  forall i : nat,
    (indexOf_Char_loop invalid n i utf16 ch = invalid
     /\ forall k : nat, (i <= k < i + n)%nat -> nth k utf16 0 <> ch)
    \/ ((i <= indexOf_Char_loop invalid n i utf16 ch < i + n)%nat
        /\ nth (indexOf_Char_loop invalid n i utf16 ch) utf16 0 = ch
        /\ forall k : nat,
             (i <= k < indexOf_Char_loop invalid n i utf16 ch)%nat ->
             nth k utf16 0 <> ch).
Proof.
  induction n as [| n IH]; intros i; cbn [indexOf_Char_loop].
  - left. split; [reflexivity | intros k Hk; lia].
  - destruct (Z.eqb_spec (nth i utf16 0) ch) as [E | E].
    + right. split; [lia | split; [exact E | intros k Hk; lia]].
    + destruct (IH (S i)) as [[Hinv Hnone] | (Hr & Hat & Hnone)].
      * left. split; [exact Hinv |]. intros k Hk.
        destruct (Nat.eq_dec k i) as [-> | Hne]; [exact E | apply Hnone; lia].
      * right. split; [lia | split; [exact Hat |]]. intros k Hk.
        destruct (Nat.eq_dec k i) as [-> | Hne]; [exact E | apply Hnone; lia].
Qed.

(** X3. [indexOf(ch, fromIndex)] is the first index from [fromIndex] on that holds
    [ch], and [Index::invalid] when there is none; with an [Index::invalid]
    that is no index of the string, it is [Index::invalid] only when there is
    none. *)
Theorem indexOf_Char_first (h : heap) (this : String) (ch : Z) (fromIndex : nat) :
  let utf16 := fst (get_utf16 h this) in
  let r := indexOf_Char_from invalid h this ch fromIndex in
  ((r = invalid
    /\ forall k : nat, (fromIndex <= k < length utf16)%nat -> nth k utf16 0 <> ch)
   \/ ((fromIndex <= r < length utf16)%nat
       /\ nth r utf16 0 = ch
       /\ forall k : nat, (fromIndex <= k < r)%nat -> nth k utf16 0 <> ch))
  /\ ((length utf16 <= invalid)%nat ->
      r = invalid
      <-> forall k : nat, (fromIndex <= k < length utf16)%nat -> nth k utf16 0 <> ch).
Proof.
  intros utf16 r.
  assert (Hcases :
            (r = invalid
             /\ forall k : nat, (fromIndex <= k < length utf16)%nat -> nth k utf16 0 <> ch)
            \/ ((fromIndex <= r < length utf16)%nat
                /\ nth r utf16 0 = ch
                /\ forall k : nat, (fromIndex <= k < r)%nat -> nth k utf16 0 <> ch)).
  { subst r. unfold indexOf_Char_from. fold utf16.
    destruct (Nat.leb_spec (length utf16) fromIndex) as [Hout | Hin].
    - left. split; [reflexivity | intros k Hk; lia].
    - destruct (indexOf_Char_loop_spec utf16 ch (length utf16 - fromIndex) fromIndex)
        as [[Hinv Hnone] | (Hr & Hat & Hnone)].
      + left. split; [exact Hinv |]. intros k Hk. apply Hnone. lia.
      + right. split; [lia | split; assumption]. }
  split; [exact Hcases |].
  intros Hinvalid. destruct Hcases as [[Hinv Hnone] | (Hr & Hat & _)].
  - split; [intros _; exact Hnone | intros _; exact Hinv].
  - split.
    + intros Hinv. lia.
    + intros Hnone. exfalso. apply (Hnone r); [lia | exact Hat].
Qed.

Lemma indexOf_String_loop_spec (utf16 str_utf16 : list Z) (n : nat) :
  forall i : nat,
    (indexOf_String_loop invalid n i utf16 str_utf16 = invalid
     /\ forall k : nat, (i <= k < i + n)%nat ->
          units_match_loop (length str_utf16) 0 utf16 k str_utf16 = false)
    \/ ((i <= indexOf_String_loop invalid n i utf16 str_utf16 < i + n)%nat
        /\ units_match_loop (length str_utf16) 0 utf16
             (indexOf_String_loop invalid n i utf16 str_utf16) str_utf16 = true
        /\ forall k : nat,
             (i <= k < indexOf_String_loop invalid n i utf16 str_utf16)%nat ->
             units_match_loop (length str_utf16) 0 utf16 k str_utf16 = false).
Proof.
  induction n as [| n IH]; intros i; cbn [indexOf_String_loop].
  - left. split; [reflexivity | intros k Hk; lia].
  - destruct (units_match_loop (length str_utf16) 0 utf16 i str_utf16) eqn:E.
    + right. split; [lia | split; [exact E | intros k Hk; lia]].
    + destruct (IH (S i)) as [[Hinv Hnone] | (Hr & Hat & Hnone)].
      * left. split; [exact Hinv |]. intros k Hk.
        destruct (Nat.eq_dec k i) as [-> | Hne]; [exact E | apply Hnone; lia].
      * right. split; [lia | split; [exact Hat |]]. intros k Hk.
        destruct (Nat.eq_dec k i) as [-> | Hne]; [exact E | apply Hnone; lia].
Qed.

Lemma no_match_no_occurrence (utf16 needle : list Z) (k : nat) :
  (k + length needle <= length utf16)%nat ->
  units_match_loop (length needle) 0 utf16 k needle = false ->
  ~ occurs_at utf16 needle k.
Proof.
  intros Hle Hno Hocc. apply units_match_occurs in Hocc; [congruence | exact Hle].
Qed.

Lemma indexOf_String_from_spec (h : heap) (this str : String) (fromIndex : nat) :
  let utf16 := fst (get_utf16 h this) in
  let str_utf16 := fst (get_utf16 h str) in
  let r := indexOf_String_from invalid h this str fromIndex in
  (r = invalid
   /\ forall k : nat, (fromIndex <= k)%nat -> ~ occurs_at utf16 str_utf16 k)
  \/ ((fromIndex <= r)%nat
      /\ occurs_at utf16 str_utf16 r
      /\ forall k : nat, (fromIndex <= k < r)%nat -> ~ occurs_at utf16 str_utf16 k).
Proof.
  intros utf16 str_utf16 r. subst r. unfold indexOf_String_from. fold utf16 str_utf16.
  destruct (Nat.eqb_spec (length str_utf16) 0) as [Hz | Hnz].
  - destruct (Nat.leb_spec fromIndex (length utf16)) as [Hin | Hout].
    + right. split; [lia |]. split; [| intros k Hk; lia].
      apply occurs_at_nth. split; [lia | intros j Hj; lia].
    + left. split; [reflexivity |]. intros k Hk [Hle _]. lia.
  - destruct ((length utf16 <=? fromIndex)%nat
              || (length utf16 <? fromIndex + length str_utf16)%nat) eqn:E.
    + left. split; [reflexivity |]. intros k Hk [Hle _]. tests_to_props; lia.
    + tests_to_props.
      destruct (indexOf_String_loop_spec utf16 str_utf16
                  (length utf16 - length str_utf16 - fromIndex + 1) fromIndex)
        as [[Hinv Hnone] | (Hr & Hat & Hnone)].
      * left. split; [exact Hinv |]. intros k Hk Hocc.
        pose proof Hocc as [Hle _].
        apply (no_match_no_occurrence utf16 str_utf16 k Hle); [| exact Hocc].
        apply Hnone. lia.
      * right. split; [lia |]. split.
        -- apply units_match_occurs; [lia | exact Hat].
        -- intros k Hk. apply no_match_no_occurrence; [lia | apply Hnone; lia].
Qed.

(** X4. [indexOf(str, fromIndex)] is the first index from [fromIndex] on where
    the units of [str] stand, and [Index::invalid] when there is none; the
    empty string stands at every index up to the length. *)
Theorem indexOf_String_first (h : heap) (this str : String) (fromIndex : nat) :
  let utf16 := fst (get_utf16 h this) in
  let str_utf16 := fst (get_utf16 h str) in
  let r := indexOf_String_from invalid h this str fromIndex in
  (r = invalid
   /\ forall k : nat, (fromIndex <= k)%nat -> ~ occurs_at utf16 str_utf16 k)
  \/ ((fromIndex <= r)%nat
      /\ occurs_at utf16 str_utf16 r
      /\ forall k : nat, (fromIndex <= k < r)%nat -> ~ occurs_at utf16 str_utf16 k).
Proof.
  exact (indexOf_String_from_spec h this str fromIndex).
Qed.

Lemma lastIndexOf_Char_loop_spec (utf16 : list Z) (ch : Z) (i : nat) :
  (lastIndexOf_Char_loop invalid i utf16 ch = invalid
   /\ forall k : nat, (k < i)%nat -> nth k utf16 0 <> ch)
  \/ ((lastIndexOf_Char_loop invalid i utf16 ch < i)%nat
      /\ nth (lastIndexOf_Char_loop invalid i utf16 ch) utf16 0 = ch
      /\ forall k : nat,
           (lastIndexOf_Char_loop invalid i utf16 ch < k < i)%nat ->
           nth k utf16 0 <> ch).
Proof.
  induction i as [| i IH]; cbn [lastIndexOf_Char_loop].
  - left. split; [reflexivity | intros k Hk; lia].
  - destruct (Z.eqb_spec (nth i utf16 0) ch) as [E | E].
    + right. split; [lia | split; [exact E | intros k Hk; lia]].
    + destruct IH as [[Hinv Hnone] | (Hr & Hat & Hnone)].
      * left. split; [exact Hinv |]. intros k Hk.
        destruct (Nat.eq_dec k i) as [-> | Hne]; [exact E | apply Hnone; lia].
      * right. split; [lia | split; [exact Hat |]]. intros k Hk.
        destruct (Nat.eq_dec k i) as [-> | Hne]; [exact E | apply Hnone; lia].
Qed.

(** X5. [lastIndexOf(ch, fromIndex)] on a string that is not empty is the last
    index up to [fromIndex] that holds [ch], and [Index::invalid] when there
    is none; on an empty string it is [Index::invalid] except for the unit 0,
    which it finds at index 0 (the terminator of the decoded form).
    [lastIndexOf(ch)] searches from the last index. *)
Theorem lastIndexOf_Char_last (h : heap) (this : String) (ch : Z) (fromIndex : nat) :
  let utf16 := fst (get_utf16 h this) in
  let r := lastIndexOf_Char_from invalid h this ch fromIndex in
  ((0 < length utf16)%nat ->
   (r = invalid
    /\ forall k : nat, (k <= fromIndex)%nat -> (k < length utf16)%nat ->
         nth k utf16 0 <> ch)
   \/ ((r <= fromIndex)%nat /\ (r < length utf16)%nat
       /\ nth r utf16 0 = ch
       /\ forall k : nat, (r < k <= fromIndex)%nat -> (k < length utf16)%nat ->
            nth k utf16 0 <> ch))
  /\ (length utf16 = 0%nat -> r = if ch =? 0 then 0%nat else invalid)
  /\ (Z.of_nat (length utf16) < 2 ^ 64 ->
      lastIndexOf_Char invalid h this ch
      = lastIndexOf_Char_from invalid h this ch (length utf16 - 1)).
Proof.
  intros utf16 r. subst r. unfold lastIndexOf_Char, lastIndexOf_Char_from. fold utf16.
  split; [| split].
  - intros Hpos.
    replace (length utf16 =? 0)%nat with false by (symmetry; apply Nat.eqb_neq; lia).
    replace (0 <? length utf16)%nat with true by (symmetry; apply Nat.ltb_lt; lia).
    cbn [orb].
    destruct (Nat.leb_spec (length utf16) fromIndex) as [Hout | Hin].
    + destruct (lastIndexOf_Char_loop_spec utf16 ch (length utf16 - 1 + 1))
        as [[Hinv Hnone] | (Hr & Hat & Hnone)].
      * left. split; [exact Hinv |]. intros k Hk Hk'. apply Hnone. lia.
      * right. split; [lia | split; [lia | split; [exact Hat |]]].
        intros k Hk Hk'. apply Hnone. lia.
    + destruct (lastIndexOf_Char_loop_spec utf16 ch (fromIndex + 1))
        as [[Hinv Hnone] | (Hr & Hat & Hnone)].
      * left. split; [exact Hinv |]. intros k Hk Hk'. apply Hnone. lia.
      * right. split; [lia | split; [lia | split; [exact Hat |]]].
        intros k Hk Hk'. apply Hnone. lia.
  - intros Hz. rewrite Hz. cbn [Nat.eqb orb Nat.ltb Nat.leb Nat.add lastIndexOf_Char_loop].
    destruct utf16; [| discriminate]. cbn [nth].
    destruct (0 =? ch) eqn:E1, (ch =? 0) eqn:E2; try reflexivity;
      tests_to_props; rewrite ?Z.eqb_eq, ?Z.eqb_neq in *; lia.
  - intros Hsmall. destruct (Nat.eq_dec (length utf16) 0%nat) as [Hz | Hnz].
    + rewrite Hz. reflexivity.
    + replace (Z.to_nat ((Z.of_nat (length utf16) - 1) mod 2 ^ 64))
        with (length utf16 - 1)%nat; [reflexivity |].
      rewrite Z.mod_small by lia. lia.
Qed.

Lemma lastIndexOf_String_loop_spec (utf16 str_utf16 : list Z) (i : nat) :
  (lastIndexOf_String_loop invalid i utf16 str_utf16 = invalid
   /\ forall k : nat, (k < i)%nat ->
        lastIndexOf_match_loop (length str_utf16) 0 utf16 k str_utf16 = false)
  \/ ((lastIndexOf_String_loop invalid i utf16 str_utf16 < i)%nat
      /\ lastIndexOf_match_loop (length str_utf16) 0 utf16
           (lastIndexOf_String_loop invalid i utf16 str_utf16) str_utf16 = true
      /\ forall k : nat,
           (lastIndexOf_String_loop invalid i utf16 str_utf16 < k < i)%nat ->
           lastIndexOf_match_loop (length str_utf16) 0 utf16 k str_utf16 = false).
Proof.
  induction i as [| i IH]; cbn [lastIndexOf_String_loop].
  - left. split; [reflexivity | intros k Hk; lia].
  - destruct (lastIndexOf_match_loop (length str_utf16) 0 utf16 i str_utf16) eqn:E.
    + right. split; [lia | split; [exact E | intros k Hk; lia]].
    + destruct IH as [[Hinv Hnone] | (Hr & Hat & Hnone)].
      * left. split; [exact Hinv |]. intros k Hk.
        destruct (Nat.eq_dec k i) as [-> | Hne]; [exact E | apply Hnone; lia].
      * right. split; [lia | split; [exact Hat |]]. intros k Hk.
        destruct (Nat.eq_dec k i) as [-> | Hne]; [exact E | apply Hnone; lia].
Qed.

(** X6. [lastIndexOf(str, fromIndex)] is the last index up to [fromIndex] where
    the units of [str] stand, and [Index::invalid] when there is none; for the
    empty string that is [fromIndex], or the length when [fromIndex] is
    beyond it. *)
Theorem lastIndexOf_String_last (h : heap) (this str : String) (fromIndex : nat) :
  let utf16 := fst (get_utf16 h this) in
  let str_utf16 := fst (get_utf16 h str) in
  let r := lastIndexOf_String_from invalid h this str fromIndex in
  (r = invalid
   /\ forall k : nat, (k <= fromIndex)%nat -> ~ occurs_at utf16 str_utf16 k)
  \/ ((r <= fromIndex)%nat
      /\ occurs_at utf16 str_utf16 r
      /\ forall k : nat, (r < k <= fromIndex)%nat -> ~ occurs_at utf16 str_utf16 k).
Proof.
  intros utf16 str_utf16 r. subst r. unfold lastIndexOf_String_from.
  fold utf16 str_utf16.
  destruct (Nat.eqb_spec (length str_utf16) 0) as [Hz | Hnz].
  - right. destruct (Nat.leb_spec fromIndex (length utf16)) as [Hin | Hout].
    + split; [lia |]. split; [| intros k Hk; lia].
      apply occurs_at_nth. split; [lia | intros j Hj; lia].
    + split; [lia |]. split; [| intros k Hk [Hle _]; lia].
      apply occurs_at_nth. split; [lia | intros j Hj; lia].
  - destruct ((length utf16 =? 0)%nat || (length utf16 <? length str_utf16)%nat) eqn:E.
    + left. split; [reflexivity |]. intros k Hk [Hle _]. tests_to_props; lia.
    + tests_to_props.
      set (from' := if (length utf16 <=? fromIndex)%nat
                    then (length utf16 - length str_utf16)%nat
                    else if (length utf16 <? fromIndex + length str_utf16)%nat
                         then (length utf16 - length str_utf16)%nat
                         else fromIndex).
      assert (Hfrom : from' = Nat.min fromIndex (length utf16 - length str_utf16)).
      { subst from'. repeat case_match; tests_to_props; lia. }
      assert (Hmatch : forall k : nat,
                 lastIndexOf_match_loop (length str_utf16) 0 utf16 k str_utf16 = true
                 <-> occurs_at utf16 str_utf16 k)
        by (intros k; apply lastIndexOf_match_occurs; lia).
      destruct (lastIndexOf_String_loop_spec utf16 str_utf16 (from' + 1))
        as [[Hinv Hnone] | (Hr & Hat & Hnone)].
      * left. split; [exact Hinv |]. intros k Hk Hocc.
        pose proof Hocc as [Hle _]. apply Hmatch in Hocc.
        rewrite Hnone in Hocc by lia. discriminate.
      * right. split; [lia |]. split; [now apply Hmatch |].
        intros k Hk Hocc. pose proof Hocc as [Hle _]. apply Hmatch in Hocc.
        rewrite Hnone in Hocc by lia. discriminate.
Qed.

(** X7. [startsWith(prefix, offset)] throws for an offset beyond the length and
    otherwise tells whether the units of [prefix] stand at [offset]. *)
Theorem startsWith_occurs (h : heap) (this prefix : String) (offset : nat) :
  let utf16 := fst (get_utf16 h this) in
  let prefix_utf16 := fst (get_utf16 h prefix) in
  ((length utf16 < offset)%nat ->
   startsWith h this prefix offset
   = Throw (StringIndexOutOfBoundsException "offset is out of bounds"))
  /\ ((offset <= length utf16)%nat ->
      exists b : bool,
        startsWith h this prefix offset = Return b
        /\ (b = true <-> occurs_at utf16 prefix_utf16 offset)).
Proof.
  intros utf16 prefix_utf16. unfold startsWith. fold utf16 prefix_utf16.
  split; intros Ho.
  - now replace (length utf16 <? offset)%nat with true by (symmetry; apply Nat.ltb_lt; lia).
  - replace (length utf16 <? offset)%nat with false by (symmetry; apply Nat.ltb_ge; lia).
    destruct (Nat.eqb_spec (length prefix_utf16) 0) as [Hz | Hnz].
    + exists true. split; [reflexivity |]. split; [intros _ | reflexivity].
      apply occurs_at_nth. split; [lia | intros j Hj; lia].
    + destruct (Nat.ltb_spec (length utf16 - offset) (length prefix_utf16)) as [Hs | Hl].
      * exists false. split; [reflexivity |]. split; [discriminate |].
        intros [Hle _]. lia.
      * eexists. split; [reflexivity |]. apply units_match_occurs. lia.
Qed.

(** X8. [endsWith(suffix)] tells whether the units of the string end with those
    of [suffix]. *)
Theorem endsWith_suffix (h : heap) (this suffix : String) :
  let utf16 := fst (get_utf16 h this) in
  let suffix_utf16 := fst (get_utf16 h suffix) in
  endsWith h this suffix = true <-> exists l : list Z, utf16 = l ++ suffix_utf16.
Proof.
  intros utf16 suffix_utf16. unfold endsWith. fold utf16 suffix_utf16.
  clearbody utf16 suffix_utf16.
  assert (Hocc : forall i : nat,
             occurs_at utf16 suffix_utf16 i /\ (i + length suffix_utf16)%nat = length utf16
             <-> exists l : list Z, utf16 = l ++ suffix_utf16 /\ length l = i).
  { intros i. rewrite occurs_at_app. split.
    - intros [(l1 & l2 & Heq & Hl1) Hlen]. exists l1. split; [| exact Hl1].
      rewrite Heq, !length_app in Hlen.
      assert (l2 = []) by (apply length_zero_iff_nil; lia). subst l2.
      now rewrite app_nil_r in Heq.
    - intros (l & Heq & Hl). split.
      + exists l, []. now rewrite app_nil_r.
      + rewrite Heq, length_app. lia. }
  destruct (Nat.eqb_spec (length suffix_utf16) 0) as [Hz | Hnz].
  - split; [intros _ | reflexivity]. exists utf16.
    apply length_zero_iff_nil in Hz. rewrite Hz. now rewrite app_nil_r.
  - destruct (Nat.ltb_spec (length utf16) (length suffix_utf16)) as [Hs | Hl].
    + split; [discriminate |]. intros [l Heq]. rewrite Heq, length_app in Hs. lia.
    + rewrite units_match_occurs by lia. split.
      * intros Ho.
        assert (Hlen : (length utf16 - length suffix_utf16 + length suffix_utf16)%nat
                       = length utf16) by lia.
        destruct (proj1 (Hocc _) (conj Ho Hlen)) as (l & Heq & _).
        now exists l.
      * intros [l Heq].
        destruct (proj2 (Hocc (length l)) (ex_intro _ l (conj Heq eq_refl))) as [Ho Hlen].
        replace (length utf16 - length suffix_utf16)%nat with (length l) by lia.
        exact Ho.
Qed.

(** X9. With an [Index::invalid] that is no index of the string, [contains(str)]
    tells whether the units of [str] stand somewhere in the string. *)
Theorem contains_infix (h : heap) (this str : String) :
  let utf16 := fst (get_utf16 h this) in
  let str_utf16 := fst (get_utf16 h str) in
  (length utf16 < invalid)%nat ->
  contains invalid h this str = true
  <-> exists l1 l2 : list Z, utf16 = l1 ++ str_utf16 ++ l2.
Proof.
  intros utf16 str_utf16 Hinv. unfold contains, indexOf_String.
  assert (Hex : (exists l1 l2 : list Z, utf16 = l1 ++ str_utf16 ++ l2)
                <-> exists k : nat, occurs_at utf16 str_utf16 k).
  { split.
    - intros (l1 & l2 & Heq). exists (length l1). apply occurs_at_app. eauto.
    - intros [k Hk]. apply occurs_at_app in Hk. destruct Hk as (l1 & l2 & Heq & _). eauto. }
  rewrite Hex, negb_true_iff, Nat.eqb_neq.
  pose proof (indexOf_String_from_spec h this str 0) as Hfirst. cbv zeta in Hfirst.
  fold utf16 str_utf16 in Hfirst.
  destruct Hfirst as [[Hr Hnone] | (_ & Hocc & _)].
  - split; [intros Hne; contradiction |]. intros [k Hk]. exfalso.
    apply (Hnone k); [lia | exact Hk].
  - split; [intros _; eauto |]. intros _. destruct Hocc as [Hle _]. lia.
Qed.

(** X10. How the searches agree: a prefix found by [startsWith] at an offset is
    where [indexOf] from that offset stops; a suffix found by [endsWith] is
    where [lastIndexOf] stops; [endsWith] is [startsWith] at the offset that
    leaves room for the suffix. *)
Theorem searches_agree (h : heap) (this str : String) :
  let utf16 := fst (get_utf16 h this) in
  let str_utf16 := fst (get_utf16 h str) in
  (forall offset : nat,
     startsWith h this str offset = Return true ->
     indexOf_String_from invalid h this str offset = offset)
  /\ (endsWith h this str = true ->
      lastIndexOf_String invalid h this str
      = (length utf16 - length str_utf16)%nat)
  /\ ((length str_utf16 <= length utf16)%nat ->
      endsWith h this str = true
      <-> startsWith h this str (length utf16 - length str_utf16) = Return true).
Proof.
  intros utf16 str_utf16. split; [| split].
  - intros offset. unfold startsWith, indexOf_String_from. fold utf16 str_utf16.
    destruct (Nat.ltb_spec (length utf16) offset) as [Hout | Hin]; [discriminate |].
    destruct (Nat.eqb_spec (length str_utf16) 0) as [Hz | Hnz].
    + intros _. now replace (offset <=? length utf16)%nat with true
        by (symmetry; apply Nat.leb_le; lia).
    + destruct (Nat.ltb_spec (length utf16 - offset) (length str_utf16)) as [Hs | Hl];
        [discriminate |].
      intros [= Hm].
      replace ((length utf16 <=? offset)%nat
               || (length utf16 <? offset + length str_utf16)%nat) with false
        by (symmetry; apply orb_false_iff; split;
            [apply Nat.leb_gt | apply Nat.ltb_ge]; lia).
      replace (length utf16 - length str_utf16 - offset + 1)%nat
        with (S (length utf16 - length str_utf16 - offset)) by lia.
      cbn [indexOf_String_loop]. now rewrite Hm.
  - unfold endsWith, lastIndexOf_String, lastIndexOf_String_from. fold utf16 str_utf16.
    destruct (Nat.eqb_spec (length str_utf16) 0) as [Hz | Hnz].
    + intros _. rewrite Nat.leb_refl. lia.
    + destruct (Nat.ltb_spec (length utf16) (length str_utf16)) as [Hs | Hl];
        [discriminate |].
      intros Hm.
      replace (length utf16 =? 0)%nat with false by (symmetry; apply Nat.eqb_neq; lia).
      cbn [orb]. rewrite Nat.leb_refl.
      replace (length utf16 - length str_utf16 + 1)%nat
        with (S (length utf16 - length str_utf16)) by lia.
      cbn [lastIndexOf_String_loop].
      apply units_match_occurs in Hm; [| lia].
      apply lastIndexOf_match_occurs in Hm; [| lia].
      now rewrite Hm.
  - intros Hle. unfold endsWith, startsWith. fold utf16 str_utf16.
    replace (length utf16 <? length utf16 - length str_utf16)%nat with false
      by (symmetry; apply Nat.ltb_ge; lia).
    destruct (Nat.eqb_spec (length str_utf16) 0) as [Hz | Hnz]; [tauto |].
    replace (length utf16 - (length utf16 - length str_utf16) <? length str_utf16)%nat
      with false by (symmetry; apply Nat.ltb_ge; lia).
    replace (length utf16 <? length str_utf16)%nat with false
      by (symmetry; apply Nat.ltb_ge; lia).
    split; [intros -> | intros [= ->]]; reflexivity.
Qed.

End Searching.

(** ** Code points: ranges, the unit before an index, assembled values *)

Section CodePointValues.

(** The units of the decoded form are 16-bit numbers. *)
Lemma get_utf16_body_range (str : list byte) :
  Forall (fun u : Z => 0 <= u < 65536) (snd (get_utf16_body str [])).
Proof.
  assert (Hmod : forall x : Z, 0 <= char16_t x < 65536)
    by (intros x; unfold char16_t; apply Z.mod_pos_bound; reflexivity).
  unfold get_utf16_body, push_back.
  repeat case_match; cbn [snd app]; repeat constructor; apply Hmod.
Qed.

Lemma decode_utf16_range (bytes : list byte) :
  Forall (fun u : Z => 0 <= u < 65536) (decode_utf16 bytes).
Proof.
  remember (length bytes) as n eqn:Hn. revert bytes Hn.
  induction n as [n IH] using lt_wf_ind. intros bytes Hn.
  destruct bytes as [| b rest]; [constructor |].
  rewrite decode_utf16_cons. apply Forall_app. split.
  - apply get_utf16_body_range.
  - pose proof (get_utf16_body_shrinks (b :: rest) [] ltac:(discriminate)) as Hlt.
    eapply IH; [| reflexivity]. lia.
Qed.

Lemma combine_surrogates (hi lo : Z) :
  high_surrogate hi -> low_surrogate lo ->
  0x10000 <= 0x10000 + Z.shiftl (hi - 0xD800) 10 + (lo - 0xDC00) <= 0x10FFFF.
Proof.
  unfold high_surrogate, low_surrogate. intros Hhi Hlo.
  rewrite Z.shiftl_mul_pow2 by lia. change (2 ^ 10) with 1024. lia.
Qed.

(** X11. On a view whose cache, if any, came from [get_utf16], [code_point_at] and
    [code_point_before] return Unicode code points (at most 0x10FFFF);
    [code_point_at] never returns a high surrogate, and returns a code point
    from 0x10000 on exactly at a high surrogate; [code_point_before] never
    returns a low surrogate. *)
Theorem code_points_in_range (h : heap) (this : String) (index : nat) (cp : CodePoint) :
  cache_coherent h this ->
  let utf16 := fst (get_utf16 h this) in
  (code_point_at h this index = Return cp ->
   0 <= code_point_value cp <= 0x10FFFF
   /\ ~ high_surrogate (code_point_value cp)
   /\ (0x10000 <= code_point_value cp <-> high_surrogate (nth index utf16 0)))
  /\ (code_point_before h this index = Return cp ->
      0 <= code_point_value cp <= 0x10FFFF
      /\ ~ low_surrogate (code_point_value cp)
      /\ (0x10000 <= code_point_value cp <-> low_surrogate (nth (index - 1) utf16 0))).
Proof.
  intros Hc utf16.
  assert (Hpaired : paired utf16)
    by (subst utf16; rewrite get_utf16_coherent by assumption; apply decode_utf16_paired).
  assert (Hrange : Forall (fun u : Z => 0 <= u < 65536) utf16)
    by (subst utf16; rewrite get_utf16_coherent by assumption; apply decode_utf16_range).
  pose proof (paired_no_lone_surrogate utf16 Hpaired) as Hlone.
  assert (Hunit : forall i : nat, (i < length utf16)%nat -> 0 <= nth i utf16 0 < 65536).
  { intros i Hi. apply (proj1 (List.Forall_nth _ utf16) Hrange). exact Hi. }
  assert (Hlookup : forall i : nat, (i < length utf16)%nat ->
                      utf16 !! i = Some (nth i utf16 0)).
  { intros i Hi. destruct (utf16 !! i) as [u |] eqn:E.
    - now rewrite (nth_lookup_Some utf16 i 0 u E).
    - apply lookup_ge_None in E. lia. }
  unfold code_point_at, code_point_before. fold utf16. clearbody utf16.
  unfold high_surrogate, low_surrogate in *.
  split.
  - destruct (Nat.leb_spec (length utf16) index) as [Hout | Hin]; [discriminate |].
    pose proof (Hunit index Hin) as Hfirst.
    destruct (Hlone index _ (Hlookup index Hin)) as [Hhigh _].
    destruct ((0xD800 <=? nth index utf16 0) && (nth index utf16 0 <=? 0xDBFF)
              && (index + 1 <? length utf16)%nat) eqn:E1;
      [destruct ((0xDC00 <=? nth (index + 1) utf16 0)
                 && (nth (index + 1) utf16 0 <=? 0xDFFF)) eqn:E2 |];
      intros [= <-]; cbn [code_point_value]; tests_to_props.
    + pose proof (combine_surrogates (nth index utf16 0) (nth (index + 1) utf16 0)) as Hc'.
      unfold high_surrogate, low_surrogate in Hc'. lia.
    + destruct Hhigh as (v & Hv & Hlow); [lia |].
      replace (S index) with (index + 1)%nat in Hv by lia.
      rewrite Hlookup in Hv by lia. injection Hv as <-. lia.
    + destruct Hhigh as (v & Hv & Hlow); [lia |].
      replace (S index) with (index + 1)%nat in Hv by lia.
      rewrite Hlookup in Hv by lia. injection Hv as <-. lia.
    + lia.
    + lia.
    + destruct (Z.le_gt_cases 0xD800 (nth index utf16 0)),
               (Z.le_gt_cases (nth index utf16 0) 0xDBFF); try lia.
      destruct Hhigh as (v & Hv & Hlow); [lia |].
      apply lookup_lt_Some in Hv. lia.
  - destruct ((index =? 0)%nat || (length utf16 <? index)%nat) eqn:E0; [discriminate |].
    tests_to_props.
    assert (Hin : (index - 1 < length utf16)%nat) by lia.
    pose proof (Hunit (index - 1)%nat Hin) as Hsecond.
    destruct (Hlone (index - 1)%nat _ (Hlookup _ Hin)) as [_ Hlow].
    destruct ((0xDC00 <=? nth (index - 1) utf16 0) && (nth (index - 1) utf16 0 <=? 0xDFFF)
              && (2 <=? index)%nat) eqn:E1;
      [destruct ((0xD800 <=? nth (index - 2) utf16 0)
                 && (nth (index - 2) utf16 0 <=? 0xDBFF)) eqn:E2 |];
      intros [= <-]; cbn [code_point_value]; tests_to_props.
    + pose proof (combine_surrogates (nth (index - 2) utf16 0) (nth (index - 1) utf16 0))
        as Hc'.
      unfold high_surrogate, low_surrogate in Hc'. lia.
    + destruct Hlow as (j & v & Hj & Hv & Hhigh); [lia |].
      replace j with (index - 2)%nat in Hv by lia.
      rewrite Hlookup in Hv by lia. injection Hv as <-. lia.
    + destruct Hlow as (j & v & Hj & Hv & Hhigh); [lia |].
      replace j with (index - 2)%nat in Hv by lia.
      rewrite Hlookup in Hv by lia. injection Hv as <-. lia.
    + lia.
    + lia.
    + destruct (Z.le_gt_cases 0xDC00 (nth (index - 1) utf16 0)),
               (Z.le_gt_cases (nth (index - 1) utf16 0) 0xDFFF); try lia.
      destruct Hlow as (j & v & Hj & Hv & Hhigh); [lia |]. lia.
Qed.

End CodePointValues.

Section CodePointNavigation.

(** X12. [code_point_before] throws exactly for the index 0 and for an index beyond
    the length; after a surrogate pair it returns what [code_point_at] returns
    at the pair; in every other case it returns the unit before the index. *)
Theorem code_point_before_mirror (h : heap) (this : String) (index : nat) :
  let utf16 := fst (get_utf16 h this) in
  ((exists e : exception, code_point_before h this index = Throw e)
   <-> index = 0%nat \/ (length utf16 < index)%nat)
  /\ ((index + 1 < length utf16)%nat ->
      high_surrogate (nth index utf16 0) ->
      low_surrogate (nth (index + 1) utf16 0) ->
      code_point_before h this (index + 2) = code_point_at h this index)
  /\ ((0 < index <= length utf16)%nat ->
      ~ ((2 <= index)%nat /\ high_surrogate (nth (index - 2) utf16 0)
         /\ low_surrogate (nth (index - 1) utf16 0)) ->
      code_point_before h this index = Return (mkCodePoint (nth (index - 1) utf16 0))).
Proof.
  intros utf16. unfold code_point_before, code_point_at, high_surrogate, low_surrogate.
  fold utf16. clearbody utf16.
  split; [| split].
  - destruct ((index =? 0)%nat || (length utf16 <? index)%nat) eqn:E.
    + split; [intros _; tests_to_props; lia | intros _; eexists; reflexivity].
    + split; [| tests_to_props; lia]. intros [e He].
      repeat case_match; discriminate.
  - intros Hin Hhi Hlo.
    replace (index + 2 - 1)%nat with (index + 1)%nat by lia.
    replace (index + 2 - 2)%nat with index by lia.
    replace ((index + 2 =? 0)%nat || (length utf16 <? index + 2)%nat) with false
      by (symmetry; apply orb_false_iff; split; [apply Nat.eqb_neq | apply Nat.ltb_ge]; lia).
    repeat decide_if. reflexivity.
  - intros Hin Hnot.
    replace ((index =? 0)%nat || (length utf16 <? index)%nat) with false
      by (symmetry; apply orb_false_iff; split; [apply Nat.eqb_neq | apply Nat.ltb_ge]; lia).
    destruct ((0xDC00 <=? nth (index - 1) utf16 0) && (nth (index - 1) utf16 0 <=? 0xDFFF)
              && (2 <=? index)%nat) eqn:E1; [| reflexivity].
    destruct ((0xD800 <=? nth (index - 2) utf16 0)
              && (nth (index - 2) utf16 0 <=? 0xDBFF)) eqn:E2; [| reflexivity].
    tests_to_props. lia.
Qed.

Ltac run_decode :=
  rewrite decode_utf16_cons; unfold get_utf16_body; open_body;
  repeat decide_if; cbn [fst snd app].

(** X13. [code_point_at(0)] gives back the scalar value of a well-formed sequence
    at the head of the view: the byte itself for ASCII, the assembled value of
    a 2- or 3-byte sequence, and for a 4-byte sequence the value that the
    decoder split into two surrogates. *)
Theorem code_point_at_assembled (h : heap) (this : String) (b0 : byte) (rest : list byte) :
  cache_coherent h this ->
  byte_range h this = b0 :: rest ->
  let c0 := uchar b0 in
  let c k := uchar (nth k rest x00) in
  let continuation k := (k < length rest)%nat /\ 0x80 <= c k < 0xC0 in
  (c0 < 0x80 -> code_point_at h this 0 = Return (mkCodePoint c0))
  /\ (0xC0 <= c0 < 0xE0 -> continuation 0%nat ->
      let v := (c0 - 0xC0) * 64 + (c 0%nat - 0x80) in
      0x80 <= v -> code_point_at h this 0 = Return (mkCodePoint v))
  /\ (0xE0 <= c0 < 0xF0 -> continuation 0%nat /\ continuation 1%nat ->
      let v := (c0 - 0xE0) * 4096 + (c 0%nat - 0x80) * 64 + (c 1%nat - 0x80) in
      0x800 <= v -> ~ 0xD800 <= v <= 0xDFFF ->
      code_point_at h this 0 = Return (mkCodePoint v))
  /\ (0xF0 <= c0 < 0xF8 ->
      continuation 0%nat /\ continuation 1%nat /\ continuation 2%nat ->
      let v := (c0 - 0xF0) * 262144 + (c 0%nat - 0x80) * 4096
               + (c 1%nat - 0x80) * 64 + (c 2%nat - 0x80) in
      0x10000 <= v <= 0x10FFFF ->
      code_point_at h this 0 = Return (mkCodePoint v)).
Proof.
  intros Hc Hbytes c0 c continuation. subst continuation c c0. cbv beta.
  pose proof (uchar_range b0) as R0.
  pose proof (uchar_range (nth 0 rest x00)) as R1.
  pose proof (uchar_range (nth 1 rest x00)) as R2.
  pose proof (uchar_range (nth 2 rest x00)) as R3.
  assert (Hat : forall u : Z, forall l : list Z,
             decode_utf16 (b0 :: rest) = u :: l -> ~ 0xD800 <= u <= 0xDBFF ->
             code_point_at h this 0 = Return (mkCodePoint u)).
  { intros u l Hd Hu. unfold code_point_at.
    rewrite get_utf16_coherent, Hbytes, Hd by assumption. cbn [List.length nth Nat.leb].
    now replace ((0xD800 <=? u) && (u <=? 0xDBFF)) with false by (symmetry; prove_test). }
  repeat match goal with |- _ /\ _ => split end.
  - intros H0. apply (Hat _ (decode_utf16 rest)); [| lia].
    run_decode. f_equal. lia_mod.
  - intros H0 H1 v Hv. subst v.
    apply (Hat _ (decode_utf16 (skipn 1 rest))); [| lia].
    run_decode. f_equal. lia_mod.
  - intros H0 H1 v Hv Hs. subst v.
    apply (Hat _ (decode_utf16 (skipn 2 rest))); [| lia].
    run_decode. f_equal. lia_mod.
  - intros H0 H1 v Hv. subst v.
    set (v := (uchar b0 - 240) * 262144 + (uchar (nth 0 rest x00) - 128) * 4096
              + (uchar (nth 1 rest x00) - 128) * 64 + (uchar (nth 2 rest x00) - 128)) in *.
    assert (Hd : decode_utf16 (b0 :: rest)
                 = (0xD800 + (v - 0x10000) / 1024) :: (0xDC00 + (v - 0x10000) mod 1024)
                   :: decode_utf16 (skipn 3 rest)).
    { subst v. run_decode.
      match goal with
      | |- context [Z.shiftr ?x 10] =>
          replace x with
            ((uchar b0 - 240) * 262144 + (uchar (nth 0 rest x00) - 128) * 4096
             + (uchar (nth 1 rest x00) - 128) * 64 + (uchar (nth 2 rest x00) - 128)
             - 65536) by lia_mod
      end.
      change 1023 with (2 ^ 10 - 1).
      rewrite !Z.shiftr_div_pow2, !land_low_mask by lia.
      change (2 ^ 10) with 1024.
      f_equal; [| f_equal]; lia_mod. }
    clearbody v. unfold code_point_at.
    rewrite get_utf16_coherent, Hbytes, Hd by assumption.
    cbn [List.length nth Nat.leb Nat.add Nat.ltb].
    repeat decide_if. do 2 f_equal.
    rewrite Z.shiftl_mul_pow2 by lia. change (2 ^ 10) with 1024. lia_mod.
Qed.

Lemma code_point_count_loop_lower (utf16 : list Z) (end_index : nat) (fuel : nat) :
  forall i count : nat,
    (i <= end_index)%nat -> (end_index - i <= fuel)%nat ->
    (end_index - i
     <= 2 * (snd (code_point_count_loop fuel utf16 end_index i count) - count))%nat
    /\ (count <= snd (code_point_count_loop fuel utf16 end_index i count))%nat.
Proof.
  induction fuel as [| fuel IH]; intros i count Hi Hf.
  - cbn. lia.
  - cbn [code_point_count_loop].
    destruct (Nat.ltb_spec i end_index) as [Hlt | Hge]; [| cbn; lia].
    unfold code_point_count_body.
    destruct ((0xD800 <=? nth i utf16 0) && (nth i utf16 0 <=? 0xDBFF)
              && (i + 1 <? end_index)%nat) eqn:E1;
      [destruct ((0xDC00 <=? nth (i + 1) utf16 0) && (nth (i + 1) utf16 0 <=? 0xDFFF))
         eqn:E2 |].
    + tests_to_props.
      destruct (IH (i + 1 + 1)%nat (count + 1)%nat); lia.
    + destruct (IH (i + 1)%nat (count + 1)%nat); lia.
    + destruct (IH (i + 1)%nat (count + 1)%nat); lia.
Qed.

(** X14. [code_point_count(begin, end)] throws exactly when [begin > end] or
    [end > length()]; otherwise it returns a count between half the number of
    units of the range (rounded up) and that number, which is 0 only for an
    empty range. *)
Theorem code_point_count_bounds (h : heap) (this : String) (begin_index end_index : nat) :
  ((exists e : exception, code_point_count h this begin_index end_index = Throw e)
   <-> (end_index < begin_index)%nat \/ (simple.length h this < end_index)%nat)
  /\ ((begin_index <= end_index <= simple.length h this)%nat ->
      exists count : nat,
        code_point_count h this begin_index end_index = Return count
        /\ (count <= end_index - begin_index <= 2 * count)%nat).
Proof.
  rewrite length_get_utf16. unfold code_point_count.
  set (utf16 := fst (get_utf16 h this)). clearbody utf16.
  destruct ((end_index <? begin_index)%nat || (length utf16 <? end_index)%nat) eqn:E;
    tests_to_props.
  - split; [split; [lia | intros _; eexists; reflexivity] | lia].
  - split; [split; [lia | intros _; eexists; reflexivity] | lia].
  - split; [split; [intros [e He]; discriminate | lia] |].
    intros _. eexists. split; [reflexivity |].
    destruct (code_point_count_loop_spec utf16 end_index (end_index - begin_index)
                begin_index 0) as (_ & Hle & _); [lia | lia |].
    destruct (code_point_count_loop_lower utf16 end_index (end_index - begin_index)
                begin_index 0) as (Hlow & _); [lia | lia |].
    lia.
Qed.

(** X15. [char_at] and [char_value] throw exactly when [code_point_at] does (an
    index from the length on); below it they give the unit at the index, which
    on a view with a coherent cache is a 16-bit number and is the code point
    that [code_point_at] returns unless it is a high surrogate. *)
Theorem char_at_unit (h : heap) (this : String) (index : nat) :
  cache_coherent h this ->
  let utf16 := fst (get_utf16 h this) in
  ((simple.length h this <= index)%nat ->
   char_at h this index = Throw (StringIndexOutOfBoundsException "Index out of bounds")
   /\ char_value h this index
      = Throw (StringIndexOutOfBoundsException "Index out of bounds")
   /\ code_point_at h this index
      = Throw (StringIndexOutOfBoundsException "Index out of bounds"))
  /\ ((index < simple.length h this)%nat ->
      char_at h this index = Return (mkChar (nth index utf16 0))
      /\ char_value h this index = Return (nth index utf16 0)
      /\ 0 <= nth index utf16 0 < 65536
      /\ (~ high_surrogate (nth index utf16 0) ->
          code_point_at h this index = Return (mkCodePoint (nth index utf16 0)))).
Proof.
  intros Hc utf16. rewrite length_get_utf16. fold utf16.
  assert (Hrange : Forall (fun u : Z => 0 <= u < 65536) utf16)
    by (subst utf16; rewrite get_utf16_coherent by assumption; apply decode_utf16_range).
  unfold char_value, char_at, code_point_at, high_surrogate. fold utf16. clearbody utf16.
  split; intros Hi.
  - replace (length utf16 <=? index)%nat with true by (symmetry; prove_test). auto.
  - replace (length utf16 <=? index)%nat with false by (symmetry; prove_test).
    split; [reflexivity | split; [reflexivity | split]].
    + apply (proj1 (List.Forall_nth _ utf16) Hrange). exact Hi.
    + intros Hnot.
      now replace ((0xD800 <=? nth index utf16 0) && (nth index utf16 0 <=? 0xDBFF))
        with false by (symmetry; prove_test).
Qed.

End CodePointNavigation.

(** ** Ordering of views *)

Section Ordering.

Lemma uchar_inj (a b : byte) : uchar a = uchar b -> a = b.
Proof.
  unfold uchar. intros H. apply N2Z.inj in H.
  pose proof (Byte.of_to_N a) as Ha. rewrite H, Byte.of_to_N in Ha. congruence.
Qed.

(** [std::string::compare], byte by byte. *)
Lemma string_compare_nil_nil : detail.string_compare [] [] = 0.
Proof. reflexivity. Qed.

Lemma string_compare_nil_cons (b : byte) (s : list byte) :
  detail.string_compare [] (b :: s) = -1.
Proof. reflexivity. Qed.

Lemma string_compare_cons_nil (a : byte) (s : list byte) :
  detail.string_compare (a :: s) [] = 1.
Proof. reflexivity. Qed.

Lemma string_compare_cons_cons (a b : byte) (s1 s2 : list byte) :
  detail.string_compare (a :: s1) (b :: s2)
  = if uchar a <? uchar b then -1
    else if uchar b <? uchar a then 1
    else detail.string_compare s1 s2.
Proof.
  unfold detail.string_compare. cbn [List.length Nat.min detail.traits_compare nth skipn].
  destruct (uchar a <? uchar b); [reflexivity |].
  destruct (uchar b <? uchar a); [reflexivity |].
  reflexivity.
Qed.

Lemma string_compare_sign (s1 : list byte) :
  forall s2 : list byte,
    (detail.string_compare s1 s2 = -1 \/ detail.string_compare s1 s2 = 0
     \/ detail.string_compare s1 s2 = 1)
    /\ (detail.string_compare s1 s2 = 0 <-> s1 = s2)
    /\ (detail.string_compare s1 s2 < 0 <-> 0 < detail.string_compare s2 s1).
Proof.
  induction s1 as [| a s1 IH]; intros [| b s2].
  - rewrite string_compare_nil_nil. split; [lia | split; [tauto | lia]].
  - rewrite string_compare_nil_cons, string_compare_cons_nil.
    split; [lia | split; [split; [lia | discriminate] | lia]].
  - rewrite string_compare_nil_cons, string_compare_cons_nil.
    split; [lia | split; [split; [lia | discriminate] | lia]].
  - rewrite !string_compare_cons_cons. destruct (IH s2) as (Hs & Hz & Ha).
    destruct (Z.ltb_spec (uchar a) (uchar b)) as [Hab | Hab];
      destruct (Z.ltb_spec (uchar b) (uchar a)) as [Hba | Hba]; try lia.
    + split; [lia | split; [split; [lia | intros [= -> _]; lia] | lia]].
    + split; [lia | split; [split; [lia | intros [= -> _]; lia] | lia]].
    + assert (a = b) by (apply uchar_inj; lia). subst b.
      split; [exact Hs | split; [| exact Ha]].
      rewrite Hz. split; [intros ->; reflexivity | intros [= ->]; reflexivity].
Qed.

Lemma string_compare_trans (s1 : list byte) :
  forall s2 s3 : list byte,
    detail.string_compare s1 s2 < 0 -> detail.string_compare s2 s3 < 0 ->
    detail.string_compare s1 s3 < 0.
Proof.
  induction s1 as [| a s1 IH]; intros [| b s2] [| c s3];
    rewrite ?string_compare_nil_nil, ?string_compare_nil_cons, ?string_compare_cons_nil,
            ?string_compare_cons_cons; try lia.
  destruct (Z.ltb_spec (uchar a) (uchar b)), (Z.ltb_spec (uchar b) (uchar a)),
           (Z.ltb_spec (uchar b) (uchar c)), (Z.ltb_spec (uchar c) (uchar b)),
           (Z.ltb_spec (uchar a) (uchar c)), (Z.ltb_spec (uchar c) (uchar a));
    try lia.
  apply IH.
Qed.

Lemma to_string_byte_range (h : heap) (this : String) :
  range_in_buffer h this -> to_string h this = Some (byte_range h this).
Proof.
  unfold range_in_buffer, to_string, byte_range. intros Hr.
  destruct ((offset_ this =? 0)%nat && (length_ this =? length (buffer h this))%nat) eqn:E.
  - tests_to_props. rewrite H, H0. cbn [skipn]. now rewrite firstn_all.
  - replace (length (buffer h this) <? offset_ this)%nat with false
      by (symmetry; apply Nat.ltb_ge; lia).
    reflexivity.
Qed.

Lemma equals_byte_range (h : heap) (this other : String) :
  range_in_buffer h this -> range_in_buffer h other ->
  equals h this other = true <-> byte_range h this = byte_range h other.
Proof.
  intros Hr Hr'. unfold equals.
  destruct (shares_data_with this other && (offset_ this =? offset_ other)%nat
            && (length_ this =? length_ other)%nat) eqn:E.
  - tests_to_props. split; [intros _ | reflexivity].
    unfold shares_data_with in *. tests_to_props.
    unfold byte_range, buffer. congruence.
  - clear E. destruct (Nat.eqb_spec (length_ this) (length_ other)) as [Hl | Hl];
      cbn [negb].
    + unfold byte_range. rewrite equals_loop_spec, <- Hl, Nat.min_id.
      unfold range_in_buffer in Hr, Hr'.
      rewrite firstn_eq_nth by (rewrite length_skipn; lia).
      split; intros Hall j Hj; apply Hall; lia.
    + split; [discriminate |]. intros Heq. exfalso. apply Hl.
      rewrite <- (byte_range_length h this Hr), <- (byte_range_length h other Hr').
      now rewrite Heq.
Qed.

Lemma compare_to_sign (h : heap) (this other : String) :
  range_in_buffer h this -> range_in_buffer h other ->
  compare_to h this other
  = Some (if detail.string_compare (byte_range h this) (byte_range h other) <? 0 then LESS
          else if 0 <? detail.string_compare (byte_range h this) (byte_range h other)
               then GREATER else EQUAL).
Proof.
  intros Hr Hr'. unfold compare_to, detail.compare_utf8_strings.
  rewrite !to_string_byte_range by assumption.
  destruct (shares_data_with this other && (offset_ this =? offset_ other)%nat
            && (length_ this =? length_ other)%nat) eqn:E;
    [| now repeat case_match].
  tests_to_props. unfold shares_data_with in *. tests_to_props.
  assert (Heq : byte_range h this = byte_range h other)
    by (unfold byte_range, buffer; congruence).
  rewrite Heq.
  pose proof (proj2 (proj1 (proj2 (string_compare_sign (byte_range h other)
                                     (byte_range h other)))) eq_refl) as Hz.
  rewrite Hz. reflexivity.
Qed.

(** X16. On views within their buffers [compare_to] returns, and it orders the
    views as their bytes: EQUAL exactly when [equals] holds, LESS one way
    exactly when GREATER the other way, and LESS is transitive. *)
Theorem compare_to_order (h : heap) (a b c : String) :
  range_in_buffer h a -> range_in_buffer h b -> range_in_buffer h c ->
  (exists r : CompareResult, compare_to h a b = Some r)
  /\ (compare_to h a b = Some EQUAL <-> equals h a b = true)
  /\ (compare_to h a b = Some LESS <-> compare_to h b a = Some GREATER)
  /\ (compare_to h a b = Some LESS -> compare_to h b c = Some LESS ->
      compare_to h a c = Some LESS).
Proof.
  intros Ha Hb Hc.
  rewrite !compare_to_sign, equals_byte_range by assumption.
  destruct (string_compare_sign (byte_range h a) (byte_range h b)) as (Hs & Hz & Hanti).
  pose proof (string_compare_trans (byte_range h a) (byte_range h b) (byte_range h c))
    as Htrans.
  split; [eexists; reflexivity |].
  split; [| split].
  - rewrite <- Hz.
    destruct (Z.ltb_spec (detail.string_compare (byte_range h a) (byte_range h b)) 0),
             (Z.ltb_spec 0 (detail.string_compare (byte_range h a) (byte_range h b)));
      split; intros H'; try discriminate; try reflexivity; lia.
  - destruct (Z.ltb_spec (detail.string_compare (byte_range h a) (byte_range h b)) 0),
             (Z.ltb_spec 0 (detail.string_compare (byte_range h a) (byte_range h b))),
             (Z.ltb_spec (detail.string_compare (byte_range h b) (byte_range h a)) 0),
             (Z.ltb_spec 0 (detail.string_compare (byte_range h b) (byte_range h a)));
      split; intros H'; try discriminate; try reflexivity; lia.
  - destruct (Z.ltb_spec (detail.string_compare (byte_range h a) (byte_range h b)) 0),
             (Z.ltb_spec 0 (detail.string_compare (byte_range h a) (byte_range h b))),
             (Z.ltb_spec (detail.string_compare (byte_range h b) (byte_range h c)) 0),
             (Z.ltb_spec 0 (detail.string_compare (byte_range h b) (byte_range h c)));
      intros H1' H2'; try discriminate.
    all: replace (detail.string_compare (byte_range h a) (byte_range h c) <? 0) with true
      by (symmetry; apply Z.ltb_lt; apply Htrans; lia); reflexivity.
Qed.

(** X17. [to_string] of a view within its buffer returns the bytes of the view,
    so that a string built from bytes gives them back; a view that starts
    beyond its buffer makes it throw. *)
Theorem to_string_bytes (h : heap) (this : String) :
  (range_in_buffer h this -> to_string h this = Some (byte_range h this))
  /\ (forall str : list byte,
        to_string (fst (new_String h str)) (snd (new_String h str)) = Some str)
  /\ ((length (buffer h this) < offset_ this)%nat -> to_string h this = None).
Proof.
  split; [apply to_string_byte_range | split].
  { intros str. destruct (new_String_well_formed h str) as [[Hr _] Hb].
    rewrite to_string_byte_range by exact Hr. now rewrite Hb. }
  intros Hout. unfold to_string.
  replace (offset_ this =? 0)%nat with false by (symmetry; apply Nat.eqb_neq; lia).
  now replace (length (buffer h this) <? offset_ this)%nat with true
    by (symmetry; apply Nat.ltb_lt; lia).
Qed.

End Ordering.

(** ** Substrings: bounds, sharing, and the units of the result *)

Section SubstringUnits.

(** One iteration of the scan on a range that is clean at its head: it drops
    the [k] bytes of the decoder's iteration, counts its units [u], and those
    [k] bytes decode to [u] in front of whatever prefix follows. *)
Lemma substring_scan_step (b0 : byte) (rest : list byte) :
  replaced_sequence (b0 :: rest) = false ->
  exists (k : nat) (u : list Z),
    (1 <= k <= length (b0 :: rest))%nat
    /\ get_utf16_body (b0 :: rest) [] = (skipn k (b0 :: rest), u)
    /\ (forall target utf16_index : nat,
          (utf16_index < target)%nat ->
          substring_scan_loop (length (b0 :: rest)) target (b0 :: rest) utf16_index
          = substring_scan_loop (length (skipn k (b0 :: rest))) target
              (skipn k (b0 :: rest)) (utf16_index + length u)%nat)
    /\ (forall off : nat,
          decode_utf16 (firstn (k + off) (b0 :: rest))
          = u ++ decode_utf16 (firstn off (skipn k (b0 :: rest)))).
Proof.
  intros Hrep.
  destruct (get_utf16_body_prefix b0 rest) as (k & Hk & Hprefix).
  pose proof (Hprefix (length (b0 :: rest)) ltac:(lia)) as Hwhole.
  rewrite firstn_all in Hwhole.
  destruct (get_utf16_body (b0 :: rest) []) as [str1 u] eqn:Hbody.
  cbn [fst snd] in *. injection Hwhole as ->.
  exists k, u. split; [exact Hk | split; [reflexivity | split]].
  - intros target utf16_index Hlt.
    pose proof (length_skipn k (b0 :: rest)) as Hlen.
    cbn [List.length substring_scan_loop] in *.
    replace (utf16_index <? target)%nat with true by (symmetry; apply Nat.ltb_lt; lia).
    rewrite (substring_scan_body_agrees _ _ Hrep), Hbody. cbn [fst snd].
    apply substring_scan_loop_fuel; lia.
  - intros off. pose proof (Hprefix (k + off)%nat ltac:(lia)) as Hp.
    destruct (k + off)%nat as [| m] eqn:Hm; [lia |].
    cbn [firstn] in Hp |- *. rewrite decode_utf16_cons, Hp. cbn [fst snd].
    change (b0 :: firstn m rest) with (firstn (S m) (b0 :: rest)).
    rewrite <- Hm. now rewrite <- firstn_skipn_comm.
Qed.

Lemma substring_scan_zero (bytes : list byte) : substring_scan bytes 0 = 0%nat.
Proof.
  unfold substring_scan. destruct bytes as [| b rest]; [reflexivity |].
  cbn [List.length substring_scan_loop Nat.ltb Nat.leb fst]. lia.
Qed.

(** The scans for two targets in order: the bytes between the two offsets
    decode to the units between the two prefixes. *)
Lemma substring_scan_between (target target' : nat) (n : nat) :
  (target <= target')%nat ->
  forall (str : list byte) (utf16_index : nat),
    length str = n ->
    (forall k : nat, replaced_sequence (skipn k str) = false) ->
    let off :=
      (length str
       - length (fst (substring_scan_loop (length str) target str utf16_index)))%nat in
    let off' :=
      (length str
       - length (fst (substring_scan_loop (length str) target' str utf16_index)))%nat in
    (off <= off' <= length str)%nat
    /\ decode_utf16 (firstn off' str)
       = decode_utf16 (firstn off str)
         ++ decode_utf16 (firstn (off' - off) (skipn off str)).
Proof.
  intros Hle. induction n as [n IH] using lt_wf_ind.
  intros str utf16_index Hn Hclean off off'.
  assert (Hbound : (off' <= length str)%nat) by (subst off'; lia).
  destruct str as [| b0 rest].
  { subst off off'. cbn. split; [lia | reflexivity]. }
  destruct (Nat.lt_ge_cases utf16_index target) as [Hlt | Hge].
  2:{ assert (Hoff : off = 0%nat).
      { subst off. cbn [List.length substring_scan_loop].
        replace (utf16_index <? target)%nat with false
          by (symmetry; apply Nat.ltb_ge; lia).
        cbn [fst List.length]. lia. }
      rewrite Hoff. cbn [firstn skipn]. rewrite decode_utf16_nil, Nat.sub_0_r.
      split; [lia | reflexivity]. }
  pose proof (Hclean 0%nat) as Hrep. cbn [skipn] in Hrep.
  destruct (substring_scan_step b0 rest Hrep) as (k & u & Hk & Hbody & Hstep & Hfirst).
  pose proof (length_skipn k (b0 :: rest)) as Hlen.
  assert (Hclean1 : forall j : nat, replaced_sequence (skipn j (skipn k (b0 :: rest))) = false)
    by (intros j; rewrite skipn_skipn; apply Hclean).
  destruct (IH (length (skipn k (b0 :: rest))) ltac:(cbn [List.length] in *; lia)
              (skipn k (b0 :: rest)) (utf16_index + length u)%nat eq_refl Hclean1)
    as [Hoffs Hdecode].
  pose proof (substring_scan_loop_length target (length (skipn k (b0 :: rest)))
                (skipn k (b0 :: rest)) (utf16_index + length u)%nat) as Hl.
  pose proof (substring_scan_loop_length target' (length (skipn k (b0 :: rest)))
                (skipn k (b0 :: rest)) (utf16_index + length u)%nat) as Hl'.
  subst off off'. rewrite (Hstep target utf16_index Hlt) in *.
  rewrite (Hstep target' utf16_index ltac:(lia)) in *.
  set (o := (length (skipn k (b0 :: rest))
             - length (fst (substring_scan_loop (length (skipn k (b0 :: rest))) target
                              (skipn k (b0 :: rest)) (utf16_index + length u))))%nat) in *.
  set (o' := (length (skipn k (b0 :: rest))
              - length (fst (substring_scan_loop (length (skipn k (b0 :: rest))) target'
                               (skipn k (b0 :: rest)) (utf16_index + length u))))%nat) in *.
  replace (length (b0 :: rest)
           - length (fst (substring_scan_loop (length (skipn k (b0 :: rest))) target
                            (skipn k (b0 :: rest)) (utf16_index + length u))))%nat
    with (k + o)%nat by (subst o; lia).
  replace (length (b0 :: rest)
           - length (fst (substring_scan_loop (length (skipn k (b0 :: rest))) target'
                            (skipn k (b0 :: rest)) (utf16_index + length u))))%nat
    with (k + o')%nat by (subst o'; lia).
  split; [lia |].
  rewrite !Hfirst, Hdecode, <- app_assoc.
  replace (k + o' - (k + o))%nat with (o' - o)%nat by lia.
  now rewrite skipn_skipn, (Nat.add_comm o k).
Qed.

Lemma substring_unfold (h : heap) (this : String) (b e : nat) :
  substring h this b e
  = let utf16 := fst (get_utf16 h this) in
    let this' := snd (get_utf16 h this) in
    if (length utf16 <? b)%nat then
      Throw (StringIndexOutOfBoundsException "beginIndex is out of bounds")
    else if (length utf16 <? e)%nat then
      Throw (StringIndexOutOfBoundsException "endIndex is out of bounds")
    else if (e <? b)%nat then
      Throw (StringIndexOutOfBoundsException "beginIndex cannot be larger than endIndex")
    else if (b =? 0)%nat && (e =? length utf16)%nat then Return (h, this')
    else if (b =? e)%nat then Return (new_String h [])
    else
      Return
        (h, mkString (data_ this')
              (offset_ this'
               + (if (0 <? b)%nat then substring_scan (byte_range h this') b else 0%nat))
              ((if (0 <? e)%nat then substring_scan (byte_range h this') e else 0%nat)
               - (if (0 <? b)%nat then substring_scan (byte_range h this') b else 0%nat))
              None).
Proof.
  unfold substring. destruct (get_utf16 h this) as [utf16 this']. reflexivity.
Qed.

Lemma substring_returns (h : heap) (this : String) (b e : nat) :
  (b <= e <= simple.length h this)%nat ->
  exists (h' : heap) (result : String), substring h this b e = Return (h', result).
Proof.
  rewrite substring_unfold, length_get_utf16. cbv zeta. intros Hbe.
  replace (length (fst (get_utf16 h this)) <? b)%nat with false
    by (symmetry; apply Nat.ltb_ge; lia).
  replace (length (fst (get_utf16 h this)) <? e)%nat with false
    by (symmetry; apply Nat.ltb_ge; lia).
  replace (e <? b)%nat with false by (symmetry; apply Nat.ltb_ge; lia).
  repeat case_match; eauto.
Qed.

(** X18. [substring(begin, end)] succeeds exactly for [begin <= end <= length()];
    otherwise it throws, for [begin] beyond the length first, then for [end]
    beyond the length, then for [begin > end].  [substring(begin)] is
    [substring(begin, length())]. *)
Theorem substring_bounds (h : heap) (this : String) (b e : nat) :
  ((simple.length h this < b)%nat ->
   substring h this b e
   = Throw (StringIndexOutOfBoundsException "beginIndex is out of bounds")
   /\ substring_from h this b
      = Throw (StringIndexOutOfBoundsException "beginIndex is out of bounds"))
  /\ ((b <= simple.length h this)%nat -> (simple.length h this < e)%nat ->
      substring h this b e
      = Throw (StringIndexOutOfBoundsException "endIndex is out of bounds"))
  /\ ((b <= simple.length h this)%nat -> (e <= simple.length h this)%nat ->
      (e < b)%nat ->
      substring h this b e
      = Throw (StringIndexOutOfBoundsException
                 "beginIndex cannot be larger than endIndex"))
  /\ ((b <= e <= simple.length h this)%nat ->
      exists (h' : heap) (result : String), substring h this b e = Return (h', result))
  /\ ((b <= simple.length h this)%nat ->
      substring_from h this b = substring h this b (simple.length h this)).
Proof.
  unfold substring_from. rewrite !substring_unfold. cbv zeta.
  rewrite length_get_utf16. set (utf16 := fst (get_utf16 h this)). clearbody utf16.
  repeat match goal with |- _ /\ _ => split end.
  - intros Hb.
    now replace (length utf16 <? b)%nat with true by (symmetry; apply Nat.ltb_lt; lia).
  - intros Hb He.
    replace (length utf16 <? b)%nat with false by (symmetry; apply Nat.ltb_ge; lia).
    now replace (length utf16 <? e)%nat with true by (symmetry; apply Nat.ltb_lt; lia).
  - intros Hb He Hbe.
    replace (length utf16 <? b)%nat with false by (symmetry; apply Nat.ltb_ge; lia).
    replace (length utf16 <? e)%nat with false by (symmetry; apply Nat.ltb_ge; lia).
    now replace (e <? b)%nat with true by (symmetry; apply Nat.ltb_lt; lia).
  - intros Hbe.
    replace (length utf16 <? b)%nat with false by (symmetry; apply Nat.ltb_ge; lia).
    replace (length utf16 <? e)%nat with false by (symmetry; apply Nat.ltb_ge; lia).
    replace (e <? b)%nat with false by (symmetry; apply Nat.ltb_ge; lia).
    repeat case_match; eauto.
  - intros Hb.
    now replace (length utf16 <? b)%nat with false by (symmetry; apply Nat.ltb_ge; lia).
Qed.


(** Where the scan for a target within the decoded length stops: after a
    prefix of the bytes that decodes to a prefix of the units, of [target]
    units, or of one more when the target lies between the halves of a pair. *)
Lemma substring_scan_prefix (bytes : list byte) (target : nat) :
  (forall k : nat, replaced_sequence (skipn k bytes) = false) ->
  (target <= length (decode_utf16 bytes))%nat ->
  exists n : nat,
    decode_utf16 (firstn (substring_scan bytes target) bytes)
    = firstn n (decode_utf16 bytes)
    /\ (n <= length (decode_utf16 bytes))%nat
    /\ (n = target
        \/ (n = (target + 1)%nat /\ (1 <= target)%nat
            /\ high_surrogate (nth (target - 1) (decode_utf16 bytes) 0)
            /\ low_surrogate (nth target (decode_utf16 bytes) 0))).
Proof.
  intros Hclean Ht.
  destruct (substring_scan_loop_spec target (length bytes) bytes 0 eq_refl Hclean)
    as (off & Hoff & Hloop & Hsplit & _ & Hstop).
  assert (Hscan : substring_scan bytes target = off).
  { unfold substring_scan. rewrite Hloop. cbn [fst]. rewrite length_skipn. lia. }
  rewrite Hscan.
  set (P := decode_utf16 (firstn off bytes)) in *.
  assert (HP : P = firstn (length P) (decode_utf16 bytes)).
  { rewrite Hsplit, firstn_app, Nat.sub_diag, firstn_all, firstn_O. now rewrite app_nil_r. }
  assert (HlenP : (length P <= length (decode_utf16 bytes))%nat).
  { rewrite Hsplit, length_app. lia. }
  exists (length P). split; [exact HP | split; [exact HlenP |]].
  destruct (Hstop ltac:(lia) ltac:(lia)) as [Hexact | (Hover & l & hi & lo & Hl & Hhi & Hlo)].
  - left. lia.
  - right.
    assert (Hll : length P = (length l + 2)%nat).
    { rewrite Hl, length_app. cbn. lia. }
    assert (Htl : target = (length l + 1)%nat) by lia.
    split; [lia | split; [lia |]].
    rewrite Hsplit, Hl, Htl, <- !app_assoc.
    replace (length l + 1 - 1)%nat with (length l) by lia.
    split.
    + rewrite app_nth2 by lia. rewrite Nat.sub_diag. exact Hhi.
    + rewrite app_nth2 by lia.
      replace (length l + 1 - length l)%nat with 1%nat by lia. exact Hlo.
Qed.

Lemma byte_range_slice (h : heap) (this : String) (ub ue : nat) :
  (ub <= ue <= length (byte_range h this))%nat ->
  byte_range h (mkString (data_ this) (offset_ this + ub) (ue - ub) None)
  = firstn (ue - ub) (skipn ub (byte_range h this)).
Proof.
  intros Hu.
  assert (Hlen : (length (byte_range h this) <= length_ this)%nat)
    by (unfold byte_range; rewrite length_firstn; lia).
  unfold byte_range, buffer. cbn [data_ offset_ length_].
  rewrite skipn_firstn_comm, firstn_firstn, skipn_skipn.
  rewrite (Nat.add_comm ub). f_equal. lia.
Qed.

(** The units of what [substring] returns, for a well-formed view whose bytes
    hold no sequence that the decoder replaces: those from [b'] to [e'], the
    indices given or, for an index between the halves of a pair, the next. *)
Lemma substring_slice (h h' : heap) (this result : String) (b e : nat) :
  well_formed h this ->
  (forall k : nat, replaced_sequence (skipn k (byte_range h this)) = false) ->
  substring h this b e = Return (h', result) ->
  let utf16 := fst (get_utf16 h this) in
  let inside (t : nat) : Prop :=
    (1 <= t)%nat /\ high_surrogate (nth (t - 1) utf16 0)
    /\ low_surrogate (nth t utf16 0) in
  (b <= e <= length utf16)%nat
  /\ (b = e -> fst (get_utf16 h' result) = [])
  /\ exists b' e' : nat,
       (b' = b \/ (b' = (b + 1)%nat /\ inside b))
       /\ (e' = e \/ (e' = (e + 1)%nat /\ inside e))
       /\ fst (get_utf16 h' result) = skipn b' (firstn e' utf16).
Proof.
  intros [Hrange Hcoh] Hclean Hsub utf16 inside.
  rewrite substring_unfold in Hsub. cbv zeta in Hsub. fold utf16 in Hsub.
  destruct (get_utf16_fields h this) as (Hd & Ho & Hl & Hcache). fold utf16 in Hcache.
  assert (Hbytes : byte_range h (snd (get_utf16 h this)) = byte_range h this)
    by (unfold byte_range, buffer; now rewrite Hd, Ho, Hl).
  rewrite Hbytes in Hsub.
  assert (Hutf : utf16 = decode_utf16 (byte_range h this))
    by (now apply get_utf16_coherent).
  set (bytes := byte_range h this) in *.
  assert (Hub : (if (0 <? b)%nat then substring_scan bytes b else 0%nat)
                = substring_scan bytes b).
  { destruct b; [now rewrite substring_scan_zero | reflexivity]. }
  assert (Hue : (if (0 <? e)%nat then substring_scan bytes e else 0%nat)
                = substring_scan bytes e).
  { destruct e; [now rewrite substring_scan_zero | reflexivity]. }
  rewrite Hub, Hue, Hd, Ho in Hsub. clear Hub Hue.
  destruct (length utf16 <? b)%nat eqn:T1; [discriminate |].
  destruct (length utf16 <? e)%nat eqn:T2; [discriminate |].
  destruct (e <? b)%nat eqn:T3; [discriminate |].
  apply Nat.ltb_ge in T1, T2, T3. split; [lia |].
  destruct ((b =? 0)%nat && (e =? length utf16)%nat) eqn:T4.
  - (* the whole string *)
    apply andb_true_iff in T4 as [Tb Te].
    apply Nat.eqb_eq in Tb, Te. injection Hsub as <- <-.
    assert (Hunits : fst (get_utf16 h (snd (get_utf16 h this))) = utf16)
      by (unfold get_utf16 at 1; now rewrite Hcache).
    rewrite Hunits. split.
    + intros Hbe. apply length_zero_iff_nil. lia.
    + exists b, e. split; [now left | split; [now left |]].
      subst b e. now rewrite firstn_all.
  - destruct (b =? e)%nat eqn:T5.
    + (* the empty string *)
      apply Nat.eqb_eq in T5.
      destruct (new_String_well_formed h []) as [[_ Hc] Hb].
      destruct (new_String h []) as [h1 s1]. cbn [fst snd] in Hc, Hb.
      injection Hsub as <- <-.
      rewrite (get_utf16_coherent _ _ Hc), Hb, decode_utf16_nil.
      split; [reflexivity |].
      exists b, e. split; [now left | split; [now left |]].
      symmetry. apply skipn_all2. rewrite length_firstn. lia.
    + (* a slice of the buffer *)
      apply Nat.eqb_neq in T5. injection Hsub as <- <-.
      split; [intros Hbe; contradiction |].
      destruct (substring_scan_prefix bytes b Hclean ltac:(rewrite <- Hutf; lia))
        as (b' & Hpb & Hlb & Hb').
      destruct (substring_scan_prefix bytes e Hclean ltac:(rewrite <- Hutf; lia))
        as (e' & Hpe & Hle & He').
      pose proof (substring_scan_between b e (length bytes) ltac:(lia) bytes 0
                    eq_refl Hclean) as Hbetween.
      cbv zeta in Hbetween. fold (substring_scan bytes b) in Hbetween.
      fold (substring_scan bytes e) in Hbetween.
      destruct Hbetween as [Horder Hdecode].
      rewrite <- Hutf in *.
      exists b', e'. split; [exact Hb' | split; [exact He' |]].
      unfold get_utf16 at 1. cbn [utf16_cache_ fst].
      pose proof (byte_range_slice h this _ _ Horder) as Hslice.
      fold bytes in Hslice. rewrite Hslice. rewrite Hpb, Hpe in Hdecode. rewrite Hdecode.
      assert (Hlen : length (firstn b' utf16) = b') by (rewrite length_firstn; lia).
      rewrite skipn_app, Hlen, Nat.sub_diag. cbn [skipn].
      rewrite (skipn_all2 (n := b') (firstn b' utf16)) by lia. reflexivity.
Qed.

(** X20. The units of a substring.  For a well-formed view whose bytes hold no
    sequence that the decoder replaces, [substring(begin, end)] is the view of
    the units from [begin] to [end] of the string, where an index between the
    halves of a surrogate pair moves behind the pair; with neither index
    inside a pair, the result has exactly the units [begin .. end - 1] and
    the length [end - begin]. *)
Theorem substring_units (h h' : heap) (this result : String) (b e : nat) :
  well_formed h this ->
  (forall k : nat, replaced_sequence (skipn k (byte_range h this)) = false) ->
  substring h this b e = Return (h', result) ->
  let utf16 := fst (get_utf16 h this) in
  let inside (t : nat) : Prop :=
    (1 <= t)%nat /\ high_surrogate (nth (t - 1) utf16 0)
    /\ low_surrogate (nth t utf16 0) in
  (b <= e <= length utf16)%nat
  /\ (exists b' e' : nat,
        (b' = b \/ (b' = (b + 1)%nat /\ inside b))
        /\ (e' = e \/ (e' = (e + 1)%nat /\ inside e))
        /\ fst (get_utf16 h' result) = skipn b' (firstn e' utf16))
  /\ (~ inside b -> ~ inside e ->
      fst (get_utf16 h' result) = skipn b (firstn e utf16)
      /\ simple.length h' result = (e - b)%nat).
Proof.
  intros Hwf Hclean Hsub utf16 inside.
  destruct (substring_slice h h' this result b e Hwf Hclean Hsub)
    as (Hbe & _ & b' & e' & Hb' & He' & Hunits).
  fold utf16 in Hbe, Hb', He', Hunits.
  split; [exact Hbe | split; [now exists b', e' |]].
  intros Hnb Hne.
  destruct Hb' as [-> | [_ Hin]]; [| contradiction].
  destruct He' as [-> | [_ Hin]]; [| contradiction].
  split; [exact Hunits |].
  rewrite length_get_utf16, Hunits, length_skipn, length_firstn. lia.
Qed.

(** Where the units of [str] stand in the string, the substring of that index
    and that length has the units of [str]. *)
Lemma substring_occurrence (h : heap) (this str : String) (i : nat) :
  well_formed h this ->
  (forall k : nat, replaced_sequence (skipn k (byte_range h this)) = false) ->
  cache_coherent h str ->
  occurs_at (fst (get_utf16 h this)) (fst (get_utf16 h str)) i ->
  exists (h' : heap) (result : String),
    substring h this i (i + length (fst (get_utf16 h str))) = Return (h', result)
    /\ fst (get_utf16 h' result) = fst (get_utf16 h str).
Proof.
  intros Hwf Hclean Hstr Hocc.
  set (utf16 := fst (get_utf16 h this)) in *.
  set (needle := fst (get_utf16 h str)) in *.
  pose proof Hocc as [Hle Hunits].
  destruct (substring_returns h this i (i + length needle)) as (h' & result & Hsub).
  { rewrite length_get_utf16. fold utf16. lia. }
  exists h', result. split; [exact Hsub |].
  destruct (substring_slice h h' this result i (i + length needle) Hwf Hclean Hsub)
    as (_ & Hempty & b' & e' & Hb' & He' & Hres).
  fold utf16 in Hb', He', Hres.
  destruct (Nat.eq_dec (length needle) 0%nat) as [Hz | Hnz].
  { rewrite Hempty by lia. symmetry. now apply length_zero_iff_nil. }
  assert (Hpaired : paired needle).
  { unfold needle. rewrite (get_utf16_coherent _ _ Hstr). apply decode_utf16_paired. }
  apply occurs_at_nth in Hocc. destruct Hocc as [_ Hnth].
  assert (Hlookup : forall j : nat, (j < length needle)%nat ->
                      needle !! j = Some (nth j needle 0)).
  { intros j Hj. destruct (needle !! j) eqn:E.
    - now rewrite (nth_lookup_Some needle j 0 z E).
    - apply lookup_ge_None in E. lia. }
  assert (Hb : b' = i).
  { destruct Hb' as [-> | (_ & _ & _ & Hlow)]; [reflexivity | exfalso].
    rewrite <- (Nat.add_0_r i), Hnth in Hlow by lia.
    assert (Hfirst : needle !! 0%nat = Some (nth 0 needle 0)) by (apply Hlookup; lia).
    destruct (proj2 (paired_no_lone_surrogate needle Hpaired _ _ Hfirst) Hlow)
      as (j & v & Hj & _).
    discriminate. }
  assert (He : e' = (i + length needle)%nat).
  { destruct He' as [-> | (_ & _ & Hhigh & _)]; [reflexivity | exfalso].
    replace (i + length needle - 1)%nat with (i + (length needle - 1))%nat in Hhigh by lia.
    rewrite Hnth in Hhigh by lia.
    assert (Hlast : needle !! (length needle - 1)%nat
                    = Some (nth (length needle - 1) needle 0)) by (apply Hlookup; lia).
    destruct (proj1 (paired_no_lone_surrogate needle Hpaired _ _ Hlast) Hhigh)
      as (v & Hv & _).
    apply lookup_lt_Some in Hv. lia. }
  rewrite Hres, Hb, He, skipn_firstn_comm.
  replace (i + length needle - i)%nat with (length needle) by lia. exact Hunits.
Qed.

(** X21. What a search finds, [substring] extracts.  On a well-formed view whose
    bytes hold no sequence that the decoder replaces, at an index [i] where
    [startsWith(str, i)] holds, or that [indexOf(str, fromIndex)] returned
    (and not [Index::invalid]), [substring(i, i + str.length())] returns a
    view with the units of [str]. *)
Theorem substring_of_match (invalid : nat) (h : heap) (this str : String)
        (i fromIndex : nat) :
  well_formed h this ->
  (forall k : nat, replaced_sequence (skipn k (byte_range h this)) = false) ->
  cache_coherent h str ->
  startsWith h this str i = Return true
  \/ (i = indexOf_String_from invalid h this str fromIndex /\ i <> invalid) ->
  exists (h' : heap) (result : String),
    substring h this i (i + simple.length h str) = Return (h', result)
    /\ fst (get_utf16 h' result) = fst (get_utf16 h str).
Proof.
  intros Hwf Hclean Hstr Hfound. rewrite length_get_utf16.
  apply substring_occurrence; try assumption.
  destruct Hfound as [Hstart | [Hindex Hvalid]].
  - unfold startsWith in Hstart.
    set (utf16 := fst (get_utf16 h this)) in *.
    set (needle := fst (get_utf16 h str)) in *.
    destruct (Nat.ltb_spec (length utf16) i) as [Hout | Hin]; [discriminate |].
    destruct (Nat.eqb_spec (length needle) 0) as [Hz | Hnz].
    + apply occurs_at_nth. split; [lia | intros j Hj; lia].
    + destruct (Nat.ltb_spec (length utf16 - i) (length needle)) as [Hs | Hl];
        [discriminate |].
      injection Hstart as Hm. apply units_match_occurs in Hm; [exact Hm | lia].
  - pose proof (indexOf_String_from_spec invalid h this str fromIndex) as Hfirst.
    cbv zeta in Hfirst. rewrite <- Hindex in Hfirst.
    destruct Hfirst as [[Hr _] | (_ & Hocc & _)]; [contradiction | exact Hocc].
Qed.

End SubstringUnits.

(** ** The theorems at concrete inputs *)

Section Examples.

(** A closed arithmetic fact, by evaluation. *)
Ltac closed_fact :=
  vm_compute; repeat split; first [reflexivity | lia | discriminate].

(** The policy on the overlong sequence E0 80 80 followed by "X". *)
Lemma get_utf16_substitution_policy_witness :
  get_utf16_loop 4 text_overlong_X [] = ([], decode_utf16 text_overlong_X)
  /\ decode_utf16 text_overlong_X
     = [0xFFFD; 0xFFFD; 0xFFFD] ++ decode_utf16 (bytes_of [0x58]).
Proof.
  destruct (get_utf16_substitution_policy text_overlong_X) as (Hloop & _ & _ & Hpolicy).
  split; [apply Hloop; closed_fact |].
  destruct (Hpolicy "224"%byte (bytes_of [0x80; 0x80; 0x58]) eq_refl)
    as (_ & _ & Hlead3 & _).
  destruct Hlead3 as [_ Hcomplete]; [closed_fact |].
  destruct Hcomplete as [Hinvalid _]; [closed_fact |].
  apply Hinvalid. left. closed_fact.
Defined.

(** A lone 2-byte lead followed by "X": one U+FFFD, then "X". *)
Example decode_lone_lead_X : decode_utf16 text_lone_lead_X = [0xFFFD; 0x58].
Proof. reflexivity. Qed.

Example decode_A_script_B : decode_utf16 text_A_script_B = [0x41; 0xD835; 0xDC9C; 0x42].
Proof. reflexivity. Qed.

(** The counter on "A", U+1D49C, "B": four units. *)
Lemma count_utf16_code_units_agrees_witness :
  detail.count_utf16_code_units_loop 6 text_A_script_B 0
  = ([], length (decode_utf16 text_A_script_B))
  /\ simple.length heap_A_script_B view_A_script_B
     = length (decode_utf16 text_A_script_B).
Proof.
  destruct (count_utf16_code_units_agrees text_A_script_B) as (_ & Hloop & Hview).
  split; [apply Hloop; closed_fact |].
  destruct (Hview heap_A_script_B view_A_script_B eq_refl eq_refl) as (_ & Hlength & _).
  exact Hlength.
Defined.

(** The scan does not count as the decoder does on an overlong sequence (one
    unit against three), so that the prefix it returns for target 1 decodes
    to three units; and for a target between the halves of a surrogate pair
    it returns a prefix with one unit more. *)
Lemma substring_scan_counterexample :
  (snd (get_utf16_body text_overlong_X []) = [0xFFFD; 0xFFFD; 0xFFFD]
   /\ substring_scan_body text_overlong_X 0 = (bytes_of [0x58], 1%nat)
   /\ length (decode_utf16 text_overlong_X) = 4%nat
   /\ substring_scan text_overlong_X 1 = 3%nat
   /\ length (decode_utf16 (firstn (substring_scan text_overlong_X 1) text_overlong_X))
      <> 1%nat)
  /\ (length (decode_utf16 text_A_script_B) = 4%nat
      /\ substring_scan text_A_script_B 2 = 5%nat
      /\ decode_utf16 (firstn (substring_scan text_A_script_B 2) text_A_script_B)
         = [0x41; 0xD835; 0xDC9C]
      /\ length (decode_utf16 (firstn (substring_scan text_A_script_B 2) text_A_script_B))
         <> 2%nat).
Proof.
  repeat split; try reflexivity; vm_compute; discriminate.
Qed.

(** What follows for [substring]: the view of E0 80 80 "X" has four units
    (three U+FFFD and "X"), and [substring(1, 4)] is the view of "X" alone,
    with one unit. *)
Example substring_overlong_X :
  simple.length heap_overlong_X view_overlong_X = 4%nat
  /\ exists (h' : heap) (result : String),
       substring heap_overlong_X view_overlong_X 1 4 = Return (h', result)
       /\ byte_range h' result = bytes_of [0x58]
       /\ simple.length h' result = 1%nat.
Proof.
  split; [reflexivity |].
  eexists _, _. split; [vm_compute; reflexivity |]. split; reflexivity.
Qed.

(** The scan on "A", U+1D49C, "B" for target 2, between the two surrogates. *)
Lemma substring_scan_offset_witness :
  (forall k : nat, replaced_sequence (skipn k text_A_script_B) = false)
  /\ (2 <= length (decode_utf16 text_A_script_B))%nat
  /\ (substring_scan text_A_script_B 2 <= length text_A_script_B)%nat
  /\ (length (decode_utf16 (firstn (substring_scan text_A_script_B 2) text_A_script_B))
      = 2%nat
      \/ (length (decode_utf16 (firstn (substring_scan text_A_script_B 2) text_A_script_B))
          = (2 + 1)%nat
          /\ exists (l : list Z) (hi lo : Z),
               decode_utf16 (firstn (substring_scan text_A_script_B 2) text_A_script_B)
               = l ++ [hi; lo]
               /\ high_surrogate hi /\ low_surrogate lo)).
Proof.
  assert (Hclean : forall k : nat, replaced_sequence (skipn k text_A_script_B) = false).
  { intros k. do 6 (destruct k as [| k]; [reflexivity |]). destruct k; reflexivity. }
  assert (Htarget : (2 <= length (decode_utf16 text_A_script_B))%nat)
    by (closed_fact).
  destruct (substring_scan_offset text_A_script_B 2 Hclean Htarget)
    as (_ & Hoff & _ & Hprefix).
  split; [exact Hclean | split; [exact Htarget | split; [exact Hoff | exact Hprefix]]].
Defined.

(** [code_point_at(1)] on "A", U+1D49C, "B". *)
Lemma code_point_at_spec_witness :
  code_point_at heap_A_script_B view_A_script_B 1 = Return (mkCodePoint 0x1D49C).
Proof.
  destruct (code_point_at_spec heap_A_script_B view_A_script_B 1) as (_ & _ & Hin).
  destruct Hin as [Hpair _]; [closed_fact |].
  rewrite Hpair; [reflexivity |].
  closed_fact.
Defined.

(** The two spellings of "cafe" with an accent are not equal. *)
Lemma equals_bytewise_witness :
  range_in_buffer heap_cafe view_cafe_precomposed
  /\ range_in_buffer heap_cafe view_cafe_combining
  /\ equals heap_cafe view_cafe_precomposed view_cafe_combining = false.
Proof.
  assert (H1 : range_in_buffer heap_cafe view_cafe_precomposed)
    by (closed_fact).
  assert (H2 : range_in_buffer heap_cafe view_cafe_combining)
    by (closed_fact).
  destruct (equals_bytewise heap_cafe view_cafe_precomposed view_cafe_combining H1 H2)
    as (_ & _ & Hdiffer).
  split; [exact H1 | split; [exact H2 |]].
  apply Hdiffer. intros E. vm_compute in E. discriminate E.
Defined.

Lemma well_formed_A_script_B : well_formed heap_A_script_B view_A_script_B.
Proof.
  split; [closed_fact |].
  intros cache E. vm_compute in E. discriminate E.
Defined.

(** The whole of "A", U+1D49C, "B", and its empty substring at 2. *)
Lemma substring_whole_and_empty_witness :
  well_formed heap_A_script_B view_A_script_B
  /\ substring heap_A_script_B view_A_script_B 0
       (simple.length heap_A_script_B view_A_script_B)
     = Return (heap_A_script_B, snd (get_utf16 heap_A_script_B view_A_script_B))
  /\ exists (h' : heap) (result : String),
       substring heap_A_script_B view_A_script_B 2 2 = Return (h', result)
       /\ is_empty result = true
       /\ byte_range h' result = []
       /\ simple.length h' result = 0%nat.
Proof.
  destruct (substring_whole_and_empty _ _ well_formed_A_script_B)
    as ((Hwhole & _) & Hempty).
  split; [exact well_formed_A_script_B | split; [exact Hwhole |]].
  apply Hempty. closed_fact.
Defined.

(** Three code points in the four units of "A", U+1D49C, "B". *)
Lemma code_point_count_le_length_witness :
  exists count : nat,
    code_point_count heap_A_script_B view_A_script_B 0
      (simple.length heap_A_script_B view_A_script_B) = Return count
    /\ (count <= simple.length heap_A_script_B view_A_script_B)%nat.
Proof.
  destruct (code_point_count_le_length heap_A_script_B view_A_script_B)
    as (count & Hcount & Hle & _).
  exists count. split; assumption.
Defined.

Example code_point_count_A_script_B :
  code_point_count heap_A_script_B view_A_script_B 0 4 = Return 3%nat.
Proof. reflexivity. Qed.

(** With an empty prefix, [startsWith] throws for an offset past the end. *)
Lemma startsWith_empty_prefix_counterexample :
  is_empty view_empty = true
  /\ simple.length heap_abc view_empty = 0%nat
  /\ simple.length heap_abc view_abc = 3%nat
  /\ startsWith heap_abc view_abc view_empty 4
     = Throw (StringIndexOutOfBoundsException "offset is out of bounds")
  /\ startsWith heap_abc view_abc view_empty 4 <> Return true.
Proof.
  repeat split; try reflexivity. vm_compute. discriminate.
Qed.

Lemma startsWith_empty_prefix_witness :
  simple.length heap_abc view_empty = 0%nat
  /\ startsWith heap_abc view_abc view_empty 3 = Return true
  /\ endsWith heap_abc view_abc view_empty = true.
Proof.
  assert (Hempty : simple.length heap_abc view_empty = 0%nat) by reflexivity.
  destruct (startsWith_empty_prefix heap_abc view_abc view_empty 3 Hempty)
    as (Hstart & _ & Hend).
  split; [exact Hempty | split; [| exact Hend]].
  apply Hstart. closed_fact.
Defined.

(** The high surrogate at index 1 of "A", U+1D49C, "B" has its low surrogate
    at index 2. *)
Lemma get_utf16_no_unpaired_surrogate_witness :
  decode_utf16 text_A_script_B !! 1%nat = Some 0xD835
  /\ exists v : Z, decode_utf16 text_A_script_B !! 2%nat = Some v /\ low_surrogate v.
Proof.
  destruct (get_utf16_no_unpaired_surrogate text_A_script_B) as [Hdecode _].
  assert (Hat : decode_utf16 text_A_script_B !! 1%nat = Some 0xD835) by reflexivity.
  destruct (Hdecode 1%nat 0xD835 Hat) as [Hhigh _].
  split; [exact Hat |].
  apply Hhigh. unfold high_surrogate. lia.
Defined.

(** "A", U+1D49C, "B" is not empty and the counter counts its four units,
    one at least in each iteration; the empty string is empty, and its length
    is 0. *)
Lemma is_empty_iff_length_zero_witness :
  well_formed heap_A_script_B view_A_script_B
  /\ (is_empty view_A_script_B = true
      <-> simple.length heap_A_script_B view_A_script_B = 0%nat)
  /\ is_empty view_A_script_B = false
  /\ simple.length heap_A_script_B view_A_script_B = 4%nat
  /\ (length (fst (detail.count_utf16_code_units_body text_A_script_B 0))
      < length text_A_script_B)%nat
  /\ (0 < snd (detail.count_utf16_code_units_body text_A_script_B 0))%nat
  /\ well_formed heap_abc view_empty
  /\ (is_empty view_empty = true <-> simple.length heap_abc view_empty = 0%nat).
Proof.
  assert (Hwf : well_formed heap_abc view_empty).
  { split; [closed_fact |].
    intros cache E. vm_compute in E. discriminate E. }
  assert (Hne : text_A_script_B <> []) by discriminate.
  destruct (is_empty_iff_length_zero heap_A_script_B view_A_script_B
              well_formed_A_script_B) as [Hiff Hstep].
  destruct (Hstep text_A_script_B 0%nat Hne) as [Hshrinks Hcounts].
  destruct (is_empty_iff_length_zero heap_abc view_empty Hwf) as [Hempty _].
  split; [exact well_formed_A_script_B | split; [exact Hiff |]].
  split.
  - destruct (is_empty view_A_script_B) eqn:E; [| reflexivity].
    pose proof (proj1 Hiff eq_refl) as Hzero. vm_compute in Hzero. discriminate Hzero.
  - split; [reflexivity |].
    split; [exact Hshrinks | split; [exact Hcounts |]].
    split; [exact Hwf | exact Hempty].
Defined.

(** *** The string searched: "A", U+1D49C, "B"; the string searched for:
    U+1D49C, "B"; 1000 stands for [Index::invalid]. *)

Lemma well_formed_search : well_formed heap_search view_A_script_B.
Proof.
  split; [closed_fact |].
  intros cache E. vm_compute in E. discriminate E.
Qed.

Lemma cache_coherent_script_B : cache_coherent heap_search view_script_B.
Proof. intros cache E. vm_compute in E. discriminate E. Qed.

Lemma clean_search (k : nat) :
  replaced_sequence (skipn k (byte_range heap_search view_A_script_B)) = false.
Proof.
  do 6 (destruct k as [| k]; [reflexivity |]). destruct k; reflexivity.
Qed.

(** "B" is first found at index 3 when searched from index 1, and "C", which
    the string does not hold, is not found. *)
Lemma indexOf_Char_first_witness :
  (length (fst (get_utf16 heap_search view_A_script_B)) <= 1000)%nat
  /\ indexOf_Char_from 1000 heap_search view_A_script_B 0x42 1 = 3%nat
  /\ (forall k : nat, (1 <= k < 3)%nat ->
        nth k (fst (get_utf16 heap_search view_A_script_B)) 0 <> 0x42)
  /\ indexOf_Char_from 1000 heap_search view_A_script_B 0x43 0 = 1000%nat
  /\ (forall k : nat,
        (0 <= k < length (fst (get_utf16 heap_search view_A_script_B)))%nat ->
        nth k (fst (get_utf16 heap_search view_A_script_B)) 0 <> 0x43).
Proof.
  assert (Hinvalid : (length (fst (get_utf16 heap_search view_A_script_B)) <= 1000)%nat)
    by closed_fact.
  destruct (indexOf_Char_first 1000 heap_search view_A_script_B 0x42 1)
    as [Hfound _].
  destruct (indexOf_Char_first 1000 heap_search view_A_script_B 0x43 0)
    as [_ Honly].
  split; [exact Hinvalid | split; [reflexivity |]].
  split.
  - destruct Hfound as [[Hinv _] | (_ & _ & Hnone)]; [| exact Hnone].
    vm_compute in Hinv. discriminate Hinv.
  - split; [reflexivity |]. apply (Honly Hinvalid). reflexivity.
Defined.

(** U+1D49C, "B" first stands at index 1. *)
Lemma indexOf_String_first_witness :
  indexOf_String_from 1000 heap_search view_A_script_B view_script_B 0 = 1%nat
  /\ occurs_at (fst (get_utf16 heap_search view_A_script_B))
       (fst (get_utf16 heap_search view_script_B)) 1.
Proof.
  destruct (indexOf_String_first 1000 heap_search view_A_script_B view_script_B 0)
    as [[Hinv _] | (_ & Hocc & _)].
  - vm_compute in Hinv. discriminate Hinv.
  - split; [reflexivity | exact Hocc].
Defined.

(** "A" is last found at index 0. *)
Lemma lastIndexOf_Char_last_witness :
  Z.of_nat (length (fst (get_utf16 heap_search view_A_script_B))) < 2 ^ 64
  /\ lastIndexOf_Char 1000 heap_search view_A_script_B 0x41
     = lastIndexOf_Char_from 1000 heap_search view_A_script_B 0x41 3
  /\ forall k : nat, (0 < k <= 3)%nat ->
       (k < length (fst (get_utf16 heap_search view_A_script_B)))%nat ->
       nth k (fst (get_utf16 heap_search view_A_script_B)) 0 <> 0x41.
Proof.
  assert (Hsmall : Z.of_nat (length (fst (get_utf16 heap_search view_A_script_B)))
                   < 2 ^ 64) by closed_fact.
  assert (Hpos : (0 < length (fst (get_utf16 heap_search view_A_script_B)))%nat)
    by closed_fact.
  destruct (lastIndexOf_Char_last 1000 heap_search view_A_script_B 0x41 3)
    as (Hlast & _ & Hwrap).
  split; [exact Hsmall | split; [exact (Hwrap Hsmall) |]].
  destruct (Hlast Hpos) as [[Hinv _] | (_ & _ & _ & Hnone)].
  - vm_compute in Hinv. discriminate Hinv.
  - exact Hnone.
Defined.

(** U+1D49C, "B" last stands at index 1. *)
Lemma lastIndexOf_String_last_witness :
  lastIndexOf_String_from 1000 heap_search view_A_script_B view_script_B 4 = 1%nat
  /\ forall k : nat, (1 < k <= 4)%nat ->
       ~ occurs_at (fst (get_utf16 heap_search view_A_script_B))
           (fst (get_utf16 heap_search view_script_B)) k.
Proof.
  destruct (lastIndexOf_String_last 1000 heap_search view_A_script_B view_script_B 4)
    as [[Hinv _] | (_ & _ & Hnone)].
  - vm_compute in Hinv. discriminate Hinv.
  - split; [reflexivity | exact Hnone].
Defined.

Lemma startsWith_occurs_witness :
  (1 <= length (fst (get_utf16 heap_search view_A_script_B)))%nat
  /\ startsWith heap_search view_A_script_B view_script_B 1 = Return true
  /\ occurs_at (fst (get_utf16 heap_search view_A_script_B))
       (fst (get_utf16 heap_search view_script_B)) 1.
Proof.
  assert (Hin : (1 <= length (fst (get_utf16 heap_search view_A_script_B)))%nat)
    by closed_fact.
  destruct (startsWith_occurs heap_search view_A_script_B view_script_B 1) as [_ Hret].
  destruct (Hret Hin) as (b & Hb & Hiff).
  split; [exact Hin | split; [reflexivity |]].
  apply Hiff. vm_compute in Hb. now injection Hb as <-.
Defined.

Lemma endsWith_suffix_witness :
  endsWith heap_search view_A_script_B view_script_B = true
  /\ exists l : list Z,
       fst (get_utf16 heap_search view_A_script_B)
       = l ++ fst (get_utf16 heap_search view_script_B).
Proof.
  split; [reflexivity |].
  apply (endsWith_suffix heap_search view_A_script_B view_script_B). reflexivity.
Defined.

Lemma contains_infix_witness :
  (length (fst (get_utf16 heap_search view_A_script_B)) < 1000)%nat
  /\ contains 1000 heap_search view_A_script_B view_script_B = true
  /\ exists l1 l2 : list Z,
       fst (get_utf16 heap_search view_A_script_B)
       = l1 ++ fst (get_utf16 heap_search view_script_B) ++ l2.
Proof.
  assert (Hinv : (length (fst (get_utf16 heap_search view_A_script_B)) < 1000)%nat)
    by closed_fact.
  split; [exact Hinv | split; [reflexivity |]].
  apply (contains_infix 1000 heap_search view_A_script_B view_script_B Hinv).
  reflexivity.
Defined.

Lemma searches_agree_witness :
  startsWith heap_search view_A_script_B view_script_B 1 = Return true
  /\ indexOf_String_from 1000 heap_search view_A_script_B view_script_B 1 = 1%nat
  /\ endsWith heap_search view_A_script_B view_script_B = true
  /\ lastIndexOf_String 1000 heap_search view_A_script_B view_script_B = 1%nat.
Proof.
  destruct (searches_agree 1000 heap_search view_A_script_B view_script_B)
    as (Hstart & Hend & _).
  split; [reflexivity | split; [apply Hstart; reflexivity |]].
  split; [reflexivity | exact (Hend eq_refl)].
Defined.

(** *** Code points of "A", U+1D49C, "B" *)

Lemma code_points_in_range_witness :
  cache_coherent heap_search view_A_script_B
  /\ code_point_at heap_search view_A_script_B 1 = Return (mkCodePoint 0x1D49C)
  /\ 0 <= 0x1D49C <= 0x10FFFF
  /\ ~ high_surrogate 0x1D49C.
Proof.
  pose proof (proj2 well_formed_search) as Hc.
  destruct (code_points_in_range heap_search view_A_script_B 1 (mkCodePoint 0x1D49C) Hc)
    as [Hat _].
  destruct (Hat eq_refl) as (Hrange & Hhigh & _).
  split; [exact Hc | split; [reflexivity | split; [exact Hrange | exact Hhigh]]].
Defined.

Lemma code_point_before_mirror_witness :
  high_surrogate (nth 1 (fst (get_utf16 heap_search view_A_script_B)) 0)
  /\ low_surrogate (nth (1 + 1) (fst (get_utf16 heap_search view_A_script_B)) 0)
  /\ code_point_before heap_search view_A_script_B (1 + 2)
     = code_point_at heap_search view_A_script_B 1.
Proof.
  assert (Hhigh : high_surrogate (nth 1 (fst (get_utf16 heap_search view_A_script_B)) 0))
    by closed_fact.
  assert (Hlow : low_surrogate
                   (nth (1 + 1) (fst (get_utf16 heap_search view_A_script_B)) 0))
    by closed_fact.
  destruct (code_point_before_mirror heap_search view_A_script_B 1) as (_ & Hpair & _).
  split; [exact Hhigh | split; [exact Hlow |]].
  apply Hpair; [closed_fact | exact Hhigh | exact Hlow].
Defined.

(** The four bytes of U+1D49C at the head of the string searched for. *)
Lemma code_point_at_assembled_witness :
  cache_coherent heap_search view_script_B
  /\ byte_range heap_search view_script_B
     = "240"%byte :: bytes_of [0x9D; 0x92; 0x9C; 0x42]
  /\ code_point_at heap_search view_script_B 0 = Return (mkCodePoint 0x1D49C).
Proof.
  assert (Hbytes : byte_range heap_search view_script_B
                   = "240"%byte :: bytes_of [0x9D; 0x92; 0x9C; 0x42]) by reflexivity.
  destruct (code_point_at_assembled heap_search view_script_B "240"%byte
              (bytes_of [0x9D; 0x92; 0x9C; 0x42]) cache_coherent_script_B Hbytes)
    as (_ & _ & _ & Hfour).
  split; [exact cache_coherent_script_B | split; [exact Hbytes |]].
  apply Hfour; closed_fact.
Defined.

Lemma code_point_count_bounds_witness :
  (0 <= 4 <= simple.length heap_search view_A_script_B)%nat
  /\ exists count : nat,
       code_point_count heap_search view_A_script_B 0 4 = Return count
       /\ (count <= 4 - 0 <= 2 * count)%nat.
Proof.
  assert (Hin : (0 <= 4 <= simple.length heap_search view_A_script_B)%nat) by closed_fact.
  destruct (code_point_count_bounds heap_search view_A_script_B 0 4) as [_ Hcount].
  split; [exact Hin | exact (Hcount Hin)].
Defined.

Lemma char_at_unit_witness :
  cache_coherent heap_search view_A_script_B
  /\ (3 < simple.length heap_search view_A_script_B)%nat
  /\ char_at heap_search view_A_script_B 3 = Return (mkChar 0x42)
  /\ code_point_at heap_search view_A_script_B 3 = Return (mkCodePoint 0x42).
Proof.
  pose proof (proj2 well_formed_search) as Hc.
  assert (Hin : (3 < simple.length heap_search view_A_script_B)%nat) by closed_fact.
  destruct (char_at_unit heap_search view_A_script_B 3 Hc) as [_ Hunit].
  destruct (Hunit Hin) as (Hchar & _ & _ & Hcp).
  split; [exact Hc | split; [exact Hin | split; [exact Hchar |]]].
  apply Hcp. intros Hhigh. vm_compute in Hhigh. destruct Hhigh as [Hlow _].
  apply Hlow. reflexivity.
Defined.

(** *** Order: "A", U+1D49C, "B" before its last byte "B" before U+1D49C, "B" *)

Lemma compare_to_order_witness :
  range_in_buffer heap_search view_A_script_B
  /\ range_in_buffer heap_search (mkString 0 5 1 None)
  /\ range_in_buffer heap_search view_script_B
  /\ compare_to heap_search view_A_script_B (mkString 0 5 1 None) = Some LESS
  /\ compare_to heap_search (mkString 0 5 1 None) view_script_B = Some LESS
  /\ compare_to heap_search view_A_script_B view_script_B = Some LESS
  /\ compare_to heap_search (mkString 0 5 1 None) view_A_script_B = Some GREATER.
Proof.
  assert (Ha : range_in_buffer heap_search view_A_script_B) by closed_fact.
  assert (Hb : range_in_buffer heap_search (mkString 0 5 1 None)) by closed_fact.
  assert (Hc : range_in_buffer heap_search view_script_B) by closed_fact.
  destruct (compare_to_order heap_search view_A_script_B (mkString 0 5 1 None)
              view_script_B Ha Hb Hc) as (_ & _ & Hanti & Htrans).
  split; [exact Ha | split; [exact Hb | split; [exact Hc |]]].
  split; [reflexivity | split; [reflexivity |]].
  split; [apply Htrans; reflexivity |].
  apply Hanti. reflexivity.
Defined.

Lemma to_string_bytes_witness :
  range_in_buffer heap_search view_script_B
  /\ to_string heap_search view_script_B = Some text_script_B.
Proof.
  assert (Hr : range_in_buffer heap_search view_script_B) by closed_fact.
  destruct (to_string_bytes heap_search view_script_B) as (Hbytes & _ & _).
  split; [exact Hr | exact (Hbytes Hr)].
Defined.

(** *** Substrings of "A", U+1D49C, "B" *)

Lemma substring_bounds_witness :
  (1 <= 4 <= simple.length heap_search view_A_script_B)%nat
  /\ (exists (h' : heap) (result : String),
        substring heap_search view_A_script_B 1 4 = Return (h', result))
  /\ substring_from heap_search view_A_script_B 1
     = substring heap_search view_A_script_B 1 4.
Proof.
  assert (Hin : (1 <= 4 <= simple.length heap_search view_A_script_B)%nat) by closed_fact.
  destruct (substring_bounds heap_search view_A_script_B 1 4)
    as (_ & _ & _ & Hreturns & Hfrom).
  split; [exact Hin | split; [exact (Hreturns Hin) |]].
  apply Hfrom. closed_fact.
Defined.


Lemma substring_units_witness :
  well_formed heap_search view_A_script_B
  /\ (forall k : nat,
        replaced_sequence (skipn k (byte_range heap_search view_A_script_B)) = false)
  /\ substring heap_search view_A_script_B 1 4
     = Return (heap_search, mkString 0 1 5 None)
  /\ fst (get_utf16 heap_search (mkString 0 1 5 None)) = [0xD835; 0xDC9C; 0x42]
  /\ simple.length heap_search (mkString 0 1 5 None) = 3%nat.
Proof.
  assert (Hsub : substring heap_search view_A_script_B 1 4
                 = Return (heap_search, mkString 0 1 5 None)) by reflexivity.
  destruct (substring_units heap_search heap_search view_A_script_B
              (mkString 0 1 5 None) 1 4 well_formed_search clean_search Hsub)
    as (_ & _ & Hexact).
  destruct Hexact as [Hunits Hlen].
  - intros (_ & Hhigh & _). vm_compute in Hhigh. destruct Hhigh as [Hlow _].
    apply Hlow. reflexivity.
  - intros (_ & Hhigh & _). vm_compute in Hhigh. destruct Hhigh as [Hlow _].
    apply Hlow. reflexivity.
  - split; [exact well_formed_search | split; [exact clean_search |]].
    split; [exact Hsub | split; [exact Hunits | exact Hlen]].
Defined.

Lemma substring_of_match_witness :
  startsWith heap_search view_A_script_B view_script_B 1 = Return true
  /\ exists (h' : heap) (result : String),
       substring heap_search view_A_script_B 1
         (1 + simple.length heap_search view_script_B)
       = Return (h', result)
       /\ fst (get_utf16 h' result) = fst (get_utf16 heap_search view_script_B).
Proof.
  assert (Hstart : startsWith heap_search view_A_script_B view_script_B 1 = Return true)
    by reflexivity.
  split; [exact Hstart |].
  apply (substring_of_match 1000 heap_search view_A_script_B view_script_B 1 0
           well_formed_search clean_search cache_coherent_script_B).
  left. exact Hstart.
Defined.

Lemma substring_well_formed_witness :
  well_formed heap_search view_A_script_B
  /\ substring heap_search view_A_script_B 1 4
     = Return (heap_search, mkString 0 1 5 None)
  /\ well_formed heap_search (mkString 0 1 5 None).
Proof.
  assert (Hsub : substring heap_search view_A_script_B 1 4
                 = Return (heap_search, mkString 0 1 5 None)) by reflexivity.
  split; [exact well_formed_search | split; [exact Hsub |]].
  exact (substring_well_formed heap_search heap_search view_A_script_B
           (mkString 0 1 5 None) 1 4 well_formed_search Hsub).
Defined.

Lemma substring_scan_monotone_witness :
  (1 <= 3)%nat
  /\ (substring_scan text_A_script_B 1 <= substring_scan text_A_script_B 3)%nat.
Proof.
  assert (Hle : (1 <= 3)%nat) by lia.
  split; [exact Hle | exact (substring_scan_monotone text_A_script_B 1 3 Hle)].
Defined.

End Examples.
